(** * The BX toolchain of cse302labs: JSON decoder, maximal munch, ARM64 emitter

    A shallow embedding of the three Python sources

    - [Labs1/bxc.py]           (module [Bxc]): tagged-JSON AST decoder,
    - [Labs2/bxc-skeleton.py]  (module [Skeleton]): AST, TAC and maximal munch,
    - [Labs1/tac2arm.py]       (module [Tac2arm]): TAC to assembly emitter,

    followed by the properties proved about them.  Python exceptions are an
    explicit [exn] value, mutable objects are threaded as explicit state. *)

From Stdlib Require Import Ascii String ZArith Lia.
From stdpp Require Import base numbers list strings pretty gmap fin_maps.

Set Warnings "-register-all".
Local Open Scope string_scope.
Local Open Scope list_scope.
Local Open Scope Z_scope.

(** ** Python values and exceptions *)

Module Py.

(** What [json.load] returns: [None], [bool], [int], [float], [str], [list]
    and [dict].  A [dict] keeps its keys in document order; the field list of
    a [JObject] is meant with pairwise distinct keys.  Strings are ASCII text;
    a float is kept as its lexeme since no source function computes on it. *)
Inductive json : Type :=
| JNull
| JBool (b : bool)
| JInt (n : Z)
| JFloat (lexeme : string)
| JString (s : string)
| JList (xs : list json)
| JObject (fields : list (string * json)).

(** The exceptions the three sources can raise.  [KeyError] carries the key
    that was looked up, [AttributeError] the attribute name. *)
Inductive exn : Type :=
| InvalidBXJSon
| KeyError (key : json)
| IndexError
| TypeError
| AttributeError (name : string)
| RecursionError.

Inductive result (A : Type) : Type :=
| Ok (a : A)
| Raise (e : exn).
Arguments Ok {A} a.
Arguments Raise {A} e.

#[global] Instance result_ret : MRet result := @Ok.
#[global] Instance result_bind : MBind result := λ A B f m,
  match m with
  | Ok a => f a
  | Raise e => Raise e
  end.
#[global] Instance result_fmap : FMap result := λ A B f m,
  match m with
  | Ok a => Ok (f a)
  | Raise e => Raise e
  end.

(** [try: m  except IndexError: raise InvalidBXJSon] *)
Definition except_IndexError {A} (m : result A) : result A :=
  match m with
  | Raise IndexError => Raise InvalidBXJSon
  | r => r
  end.

(** [v == s] for an arbitrary value [v] and a string [s]. *)
Definition is_str (v : json) (s : string) : bool :=
  match v with
  | JString s' => String.eqb s' s
  | _ => false
  end.

(** [d[k]] on the field list of a dict. *)
Fixpoint assoc {A} (k : string) (fs : list (string * A)) : option A :=
  match fs with
  | [] => None
  | (k', v) :: fs' => if String.eqb k k' then Some v else assoc k fs'
  end.

(** [v[k]] for a string key [k]. *)
Definition getitem_str (v : json) (k : string) : result json :=
  match v with
  | JObject fs =>
      match assoc k fs with
      | Some x => Ok x
      | None => Raise (KeyError (JString k))
      end
  | _ => Raise TypeError
  end.

Fixpoint string_nth (i : nat) (s : string) : option ascii :=
  match s, i with
  | EmptyString, _ => None
  | String c _, O => Some c
  | String _ s', S i' => string_nth i' s'
  end.

(** [v[i]] for a non-negative integer index [i]. *)
Definition getitem_int (v : json) (i : nat) : result json :=
  match v with
  | JList xs =>
      match xs !! i with
      | Some x => Ok x
      | None => Raise IndexError
      end
  | JString s =>
      match string_nth i s with
      | Some c => Ok (JString (String c EmptyString))
      | None => Raise IndexError
      end
  | JObject _ => Raise (KeyError (JInt (Z.of_nat i)))
  | _ => Raise TypeError
  end.

Fixpoint chars (s : string) : list json :=
  match s with
  | EmptyString => []
  | String c s' => JString (String c EmptyString) :: chars s'
  end.

(** [iter(v)]: the items a [for] loop or a [*v] unpacking goes through. *)
Definition iterate (v : json) : result (list json) :=
  match v with
  | JList xs => Ok xs
  | JString s => Ok (chars s)
  | JObject fs => Ok (map (λ kv, JString kv.1) fs)
  | _ => Raise TypeError
  end.

(** [f( *v )] for a function [f] of exactly two positional parameters. *)
Definition star2 {A} (f : json → json → result A) (v : json) : result A :=
  items ← iterate v;
  match items with
  | [a; b] => f a b
  | _ => Raise TypeError
  end.

(** [list(f(x) for x in xs)]: stops at the first exception. *)
Fixpoint list_of_gen {A B} (f : A → result B) (xs : list A)
  : result (list B) :=
  match xs with
  | [] => Ok []
  | x :: xs' => y ← f x; ys ← list_of_gen f xs'; Ok (y :: ys)
  end.

(** Nesting depth of a value: bounds the recursion of the decoder. *)
Fixpoint json_depth (v : json) : nat :=
  match v with
  | JList xs =>
      S ((fix go (l : list json) : nat :=
            match l with
            | [] => O
            | x :: l' => Nat.max (json_depth x) (go l')
            end) xs)
  | JObject fs =>
      S ((fix go (l : list (string * json)) : nat :=
            match l with
            | [] => O
            | kv :: l' => Nat.max (json_depth kv.2) (go l')
            end) fs)
  | _ => O
  end.

(** Python's [==] on values built from [None], strings, lists and dicts:
    two dicts are equal when they bind the same keys to equal values,
    whatever the order of their keys. *)
Inductive py_eq : json → json → Prop :=
| py_eq_null : py_eq JNull JNull
| py_eq_str (s : string) : py_eq (JString s) (JString s)
| py_eq_list (xs ys : list json) :
    Forall2 py_eq xs ys → py_eq (JList xs) (JList ys)
| py_eq_dict (fs gs : list (string * json)) :
    NoDup fs.*1 → NoDup gs.*1 → length fs = length gs →
    (∀ k v, assoc k fs = Some v → ∃ w, assoc k gs = Some w ∧ py_eq v w) →
    py_eq (JObject fs) (JObject gs).

End Py.

(** ** Labs1/bxc.py *)

Module Bxc.
Import Py.

(** The dataclasses.  Field annotations are not enforced by Python: a field
    holds whatever value the decoder stored, hence [json]. *)
Inductive Expression : Type :=
| VarExpression (name : json)
| IntExpression (value : json)
| OpAppExpression (operator : json) (arguments : list Expression).

Inductive Statement : Type :=
| VarDeclStatement (name : json)
| AssignStatement (lhs : json) (rhs : Expression)
| PrintStatement (value : Expression).

(** The regular expression [^<(\w+)(?::(\w+))?>$] of [parse_tag].  On a
    [str], [\w] is a letter, a digit or an underscore for the characters
    below 128, and follows the Unicode classes above them; the latter are
    not modelled, so [is_word] speaks for ASCII text only. *)
Definition is_word (c : ascii) : bool :=
  let n := nat_of_ascii c in
  ((48 <=? n) && (n <=? 57) || (65 <=? n) && (n <=? 90)
   || (97 <=? n) && (n <=? 122) || (n =? 95))%nat.

(** Longest prefix of word characters, and what follows it. *)
Fixpoint span_word (s : string) : string * string :=
  match s with
  | EmptyString => (EmptyString, EmptyString)
  | String c s' =>
      if is_word c then
        let '(w, r) := span_word s' in (String c w, r)
      else (EmptyString, s)
  end.

(** [$] matches at the end of the string and before a final newline. *)
Definition at_end (s : string) : bool :=
  match s with
  | EmptyString => true
  | String c EmptyString => Ascii.eqb c "010"%char
  | _ => false
  end.

Definition parse_tag (tag : string) : result (string * option string) :=
  match tag with
  | String "<" s =>
      match span_word s with
      | (EmptyString, _) => Raise InvalidBXJSon
      | (clazz, String ">" r) =>
          if at_end r then Ok (clazz, None) else Raise InvalidBXJSon
      | (clazz, String ":" s') =>
          match span_word s' with
          | (EmptyString, _) => Raise InvalidBXJSon
          | (kind, String ">" r) =>
              if at_end r then Ok (clazz, Some kind) else Raise InvalidBXJSon
          | _ => Raise InvalidBXJSon
          end
      | _ => Raise InvalidBXJSon
      end
  | _ => Raise InvalidBXJSon
  end.

(** [parse_tag] applied to an arbitrary value: [re.search] raises
    [TypeError] on anything but a string. *)
Definition parse_tag_value (tag : json) : result (string * option string) :=
  match tag with
  | JString s => parse_tag s
  | _ => Raise TypeError
  end.

Definition parse_name (name : json) : result json :=
  except_IndexError (n1 ← getitem_int name 1; getitem_str n1 "value").

(** The second component of a schema entry: [None], a class name, or the
    type [int]. *)
Inductive etype : Type :=
| ENone
| EClass (clazz : string)
| EInt.

Definition check_field (fs : list (string * json)) (entry : string * etype)
  : result unit :=
  match assoc entry.1 fs with
  | None => Raise InvalidBXJSon
  | Some value =>
      match entry.2 with
      | ENone => Ok ()
      | EClass etype =>
          match value with
          | JList [JString tag; _] =>
              '(clazz, _) ← parse_tag tag;
              if String.eqb clazz etype then Ok () else Raise InvalidBXJSon
          | _ => Raise InvalidBXJSon
          end
      | EInt =>
          match value with
          | JInt _ | JBool _ => Ok ()
          | _ => Raise InvalidBXJSon
          end
      end
  end.

Fixpoint check_fields (fs : list (string * json))
  (schema : list (string * etype)) : result unit :=
  match schema with
  | [] => Ok ()
  | entry :: schema' => _ ← check_field fs entry; check_fields fs schema'
  end.

Definition check_shallow_schema (data : json)
  (schema : list (string * etype)) : result unit :=
  match data with
  | JObject fs => check_fields fs schema
  | _ => Raise InvalidBXJSon
  end.

Definition EXPRESSION_VAR_SCHEMA := [("name", EClass "name")].
Definition EXPRESSION_INT_SCHEMA := [("value", EInt)].
Definition EXPRESSION_UNIOP_SCHEMA :=
  [("operator", EClass "name"); ("argument", EClass "expression")].
Definition EXPRESSION_BINOP_SCHEMA :=
  [("operator", EClass "name"); ("left", EClass "expression");
   ("right", EClass "expression")].

(** The builders take the decoder they call back as [self]. *)
Section Builders.
Variable self : json → json → result Expression.

Definition expression_var_of_json (data : json) : result Expression :=
  name ← (getitem_str data "name" ≫= parse_name);
  Ok (VarExpression name).

Definition expression_int_of_json (data : json) : result Expression :=
  value ← getitem_str data "value";
  Ok (IntExpression value).

Definition expression_uniop_of_json (data : json) : result Expression :=
  operator ← (getitem_str data "operator" ≫= parse_name);
  argument ← (getitem_str data "argument" ≫= star2 self);
  Ok (OpAppExpression operator [argument]).

Definition expression_binop_of_json (data : json) : result Expression :=
  operator ← (getitem_str data "operator" ≫= parse_name);
  left ← (getitem_str data "left" ≫= star2 self);
  right ← (getitem_str data "right" ≫= star2 self);
  Ok (OpAppExpression operator [left; right]).

Definition JSON_EXPRESSIONS
  : list (string * (list (string * etype) * (json → result Expression))) :=
  [("var", (EXPRESSION_VAR_SCHEMA, expression_var_of_json));
   ("int", (EXPRESSION_INT_SCHEMA, expression_int_of_json));
   ("uniop", (EXPRESSION_UNIOP_SCHEMA, expression_uniop_of_json));
   ("binop", (EXPRESSION_BINOP_SCHEMA, expression_binop_of_json))].

(** The body of [expression_of_json]; [kind not in JSON_EXPRESSIONS] is true
    for [None] and for every string that is not a key. *)
Definition expression_of_json_body (tag data : json) : result Expression :=
  '(clazz, kind) ← parse_tag_value tag;
  if negb (String.eqb clazz "expression") then Raise InvalidBXJSon else
  match kind ≫= (λ k, assoc k JSON_EXPRESSIONS) with
  | None => Raise InvalidBXJSon
  | Some (schema, builder) =>
      _ ← check_shallow_schema data schema;
      builder data
  end.

End Builders.

(** [expression_of_json] when the interpreter has room for [depth] nested
    activations of it: a call that finds no room left raises
    [RecursionError].  How many activations the recursion limit leaves
    depends on the interpreter and on the stack at the call, so properties
    are stated for every [depth]. *)
Fixpoint expression_of_json_upto (depth : nat) (tag data : json)
  : result Expression :=
  match depth with
  | O => Raise RecursionError
  | S d => expression_of_json_body (expression_of_json_upto d) tag data
  end.

(** The decoder in a run that does not come near the recursion limit.
    Every recursive call is on a value nested strictly inside [data], so
    room for one more activation than the nesting of [data] is never
    exhausted: see [expression_of_json_unfold] and
    [expression_of_json_terminates]. *)
Definition expression_of_json (tag data : json) : result Expression :=
  expression_of_json_upto (S (json_depth data)) tag data.

Definition STATEMENT_VARDECL_SCHEMA := [("name", EClass "name")].
(** The source binds this second schema to the name
    [STATEMENT_VARDECL_SCHEMA] again, after the first was stored. *)
Definition STATEMENT_ASSIGN_SCHEMA :=
  [("lvalue", EClass "lvalue"); ("rvalue", EClass "expression")].
Definition STATEMENT_EVAL_SCHEMA := [("expression", EClass "expression")].

Definition statement_vardecl_of_json (data : json) : result Statement :=
  name ← (getitem_str data "name" ≫= parse_name);
  Ok (VarDeclStatement name).

Definition statement_assign_of_json (data : json) : result Statement :=
  lhs ← (lvalue ← getitem_str data "lvalue";
         payload ← getitem_int lvalue 1;
         name ← getitem_str payload "name";
         parse_name name);
  rhs ← (getitem_str data "rvalue" ≫= star2 expression_of_json);
  Ok (AssignStatement lhs rhs).

Definition statement_eval_of_json (data : json) : result Statement :=
  expression ← getitem_str data "expression";
  _ ← except_IndexError (
        head ← getitem_int expression 0;
        if negb (is_str head "<expression:call>") then Raise InvalidBXJSon else
        payload ← getitem_int expression 1;
        target ← getitem_str payload "target";
        name ← parse_name target;
        if negb (is_str name "print") then Raise InvalidBXJSon else Ok ());
  value ← (payload ← getitem_int expression 1;
           arguments ← getitem_str payload "arguments";
           first ← getitem_int arguments 0;
           star2 expression_of_json first);
  Ok (PrintStatement value).

Definition JSON_STATEMENTS
  : list (string * (list (string * etype) * (json → result Statement))) :=
  [("vardecl", (STATEMENT_VARDECL_SCHEMA, statement_vardecl_of_json));
   ("assign", (STATEMENT_ASSIGN_SCHEMA, statement_assign_of_json));
   ("eval", (STATEMENT_EVAL_SCHEMA, statement_eval_of_json))].

Definition statement_of_json (tag data : json) : result Statement :=
  '(clazz, kind) ← parse_tag_value tag;
  if negb (String.eqb clazz "statement") then Raise InvalidBXJSon else
  match kind ≫= (λ k, assoc k JSON_STATEMENTS) with
  | None => Raise InvalidBXJSon
  | Some (schema, builder) =>
      _ ← check_shallow_schema data schema;
      builder data
  end.

Definition bxprogram_of_json (data : json) : result (list Statement) :=
  body ← except_IndexError (
           ast ← getitem_str data "ast";
           node ← getitem_int ast 0;
           payload ← getitem_int node 1;
           getitem_str payload "body");
  items ← iterate body;
  list_of_gen (star2 statement_of_json) items.

End Bxc.

(** ** Labs2/bxc-skeleton.py *)

Module Skeleton.
Import Py.

Record Name : Type := { value : string }.

Inductive Expression : Type :=
| VarExpression (name : Name)
| IntExpression (value : Z)
| OpAppExpression (operator : string) (arguments : list Expression).

(** [init] is [None] when the declaration carries no initializer. *)
Inductive Statement : Type :=
| VarDeclStatement (name : Name) (init : option Expression)
| AssignStatement (lhs : Name) (rhs : Expression)
| PrintStatement (value : Expression).

Definition Program : Type := list Statement.

(** The operator names the parser attaches to an [OpAppExpression]. *)
Definition UNIOP : list (string * string) :=
  [("-", "opposite"); ("~", "bitwise-negation")].

Definition BINOP : list (string * string) :=
  [("+", "addition"); ("-", "subtraction"); ("*", "multiplication");
   ("/", "division"); ("%", "modulus"); (">>", "logical-right-shift");
   ("<<", "logical-left-shift"); ("&", "bitwise-and"); ("|", "bitwise-or");
   ("^", "bitwise-xor")].

Definition OPCODES : gmap string string :=
  list_to_map
    [("opposite", "neg"); ("addition", "add"); ("subtraction", "sub");
     ("multiplication", "mul"); ("division", "div"); ("modulus", "mod");
     ("bitwise-negation", "not"); ("bitwise-and", "and");
     ("bitwise-or", "or"); ("bitwise-xor", "xor");
     ("logical-shift-left", "shl"); ("logical-shift-right", "shr")].

Record TAC : Type := {
  opcode : string;
  arguments : list string;
  result : option string;
}.

Definition tojson (self : TAC) : json :=
  JObject
    [("opcode", JString (opcode self));
     ("args", JList (JString <$> arguments self));
     ("result", match result self with
                | Some r => JString r
                | None => JNull
                end)].

(** The state of an [MM] instance. *)
Record MM : Type := {
  _counter : Z;
  _tac : list TAC;
  _vars : gmap string string;
}.

Definition MM_init : MM := {| _counter := -1; _tac := []; _vars := ∅ |}.

Definition fresh_temporary (self : MM) : string * MM :=
  let counter := _counter self + 1 in
  ("%" +:+ pretty counter,
   {| _counter := counter; _tac := _tac self; _vars := _vars self |}).

Definition push (opcode : string) (arguments : list string)
  (result : option string) (self : MM) : MM :=
  {| _counter := _counter self;
     _tac := _tac self ++ [Build_TAC opcode arguments result];
     _vars := _vars self |}.

(** [self._vars[name] = temp] *)
Definition vars_set (name temp : string) (self : MM) : MM :=
  {| _counter := _counter self;
     _tac := _tac self;
     _vars := <[name := temp]> (_vars self) |}.

(** [self._vars[name]] *)
Definition vars_get (name : string) (self : MM) : Py.result string :=
  match _vars self !! name with
  | Some temp => Ok temp
  | None => Raise (KeyError (JString name))
  end.

(** [OPCODES[operator]] *)
Definition opcodes_get (operator : string) : Py.result string :=
  match OPCODES !! operator with
  | Some mnemonic => Ok mnemonic
  | None => Raise (KeyError (JString operator))
  end.

(** [for_expression] returns the target and the updated instance.  In the
    [OpAppExpression] case the target is minted first, the arguments are
    lowered next, and [OPCODES[operator]] is looked up last, when the call
    to [push] evaluates its arguments.  This is the method in a run that
    does not reach the recursion limit; [for_expression_upto] below has the
    limit. *)
Fixpoint for_expression (expr : Expression) (self : MM)
  : Py.result (string * MM) :=
  match expr with
  | VarExpression name =>
      target ← vars_get (value name) self;
      Ok (target, self)
  | IntExpression v =>
      let '(target, self) := fresh_temporary self in
      Ok (target, push "const" [pretty v] (Some target) self)
  | OpAppExpression operator arguments =>
      let '(target, self) := fresh_temporary self in
      '(arguments, self) ←
        (fix each (es : list Expression) (self : MM)
           : Py.result (list string * MM) :=
           match es with
           | [] => Ok ([], self)
           | e :: es' =>
               '(t, self) ← for_expression e self;
               '(ts, self) ← each es' self;
               Ok (t :: ts, self)
           end) arguments self;
      mnemonic ← opcodes_get operator;
      Ok (target, push mnemonic arguments (Some target) self)
  end.

(** [push('const', '0', temp)] passes both strings positionally, so both
    land in [arguments] and [result] keeps its default [None]. *)
Definition for_statement (stmt : Statement) (self : MM) : Py.result MM :=
  match stmt with
  | VarDeclStatement name _ =>
      let '(temp, self) := fresh_temporary self in
      let self := vars_set (value name) temp self in
      temp ← vars_get (value name) self;
      Ok (push "const" ["0"; temp] None self)
  | AssignStatement lhs rhs =>
      '(temp, self) ← for_expression rhs self;
      dest ← vars_get (value lhs) self;
      Ok (push "copy" [temp] (Some dest) self)
  | PrintStatement v =>
      '(temp, self) ← for_expression v self;
      Ok (push "print" [temp] None self)
  end.

Fixpoint for_program (prgm : Program) (self : MM) : Py.result MM :=
  match prgm with
  | [] => Ok self
  | stmt :: prgm' => self ← for_statement stmt self; for_program prgm' self
  end.

Definition mm (prgm : Program) : Py.result (list TAC) :=
  self ← for_program prgm MM_init;
  Ok (_tac self).

(** The document [_main] hands to [json.dump]. *)
Definition aout (tac : list TAC) : json :=
  JList [JObject [("proc", JString "@main");
                  ("body", JList (tojson <$> tac))]].

(** A temporary is a name minted by [fresh_temporary]: it starts with [%]. *)
Definition is_temporary (operand : string) : bool :=
  match operand with
  | String "%" _ => true
  | _ => false
  end.

(** The temporaries written by a sequence, in order. *)
Definition results (tac : list TAC) : list string := omap result tac.

(** Single static assignment: no temporary is the result of two
    instructions. *)
Definition single_assignment (tac : list TAC) : Prop := NoDup (results tac).

(** Def-before-use, for the argument temporaries selected by [P]. *)
Definition def_before_use (P : string → Prop) (tac : list TAC) : Prop :=
  ∀ (i : nat) (instr : TAC) (t : string),
    tac !! i = Some instr → t ∈ arguments instr →
    is_temporary t = true → P t →
    ∃ (j : nat) (writer : TAC),
      (j < i)%nat ∧ tac !! j = Some writer ∧ result writer = Some t.

(** The temporary a statement declares, read from the state it leaves. *)
Definition declared_by (stmt : Statement) (self' : MM) : list string :=
  match stmt with
  | VarDeclStatement name _ => option_list (_vars self' !! value name)
  | _ => []
  end.

(** The temporaries bound to declared names while [prgm] is lowered from
    the state [self]: after each [VarDeclStatement], the binding of its
    name. *)
Fixpoint declared_from (self : MM) (prgm : Program) : list string :=
  match prgm with
  | [] => []
  | stmt :: prgm' =>
      match for_statement stmt self with
      | Raise _ => []
      | Ok self' => declared_by stmt self' ++ declared_from self' prgm'
      end
  end.

Definition declared_temporaries (prgm : Program) : list string :=
  declared_from MM_init prgm.

(** Single assignment for the temporaries outside [declared]. *)
Definition single_assignment_except (declared : list string)
  (tac : list TAC) : Prop :=
  NoDup (filter (λ t, t ∉ declared) (results tac)).

(** The name [fresh_temporary] mints when the counter reaches [k]. *)
Definition temp_name (k : Z) : string := "%" +:+ pretty k.

(** The comprehension [[self.for_expression(e) for e in arguments]]. *)
Fixpoint for_arguments (es : list Expression) (self : MM)
  : Py.result (list string * MM) :=
  match es with
  | [] => Ok ([], self)
  | e :: es' =>
      '(t, self) ← for_expression e self;
      '(ts, self) ← for_arguments es' self;
      Ok (t :: ts, self)
  end.

(** Every temporary among the arguments of an instruction is in [known] or
    is the result of an instruction before it in the sequence. *)
Fixpoint defined_in_order (known : list string) (tac : list TAC) : Prop :=
  match tac with
  | [] => True
  | instr :: tac' =>
      (∀ t, t ∈ arguments instr → is_temporary t = true → t ∈ known)
      ∧ defined_in_order (known ++ option_list (result instr)) tac'
  end.

(** What lowering an expression adds to the state: a block [new] of
    instructions whose results are minted after the counter of [self], are
    pairwise distinct, and whose argument temporaries are bound variables
    or results of the block itself. *)
Definition minted_in (lo hi : Z) (instr : TAC) : Prop :=
  ∃ k, result instr = Some (temp_name k) ∧ lo < k ≤ hi.

Definition covers_vars (self : MM) (known : list string) : Prop :=
  ∀ x t, _vars self !! x = Some t → t ∈ known.

Record lowered (self self' : MM) (new : list TAC) : Prop := {
  lowered_tac : _tac self' = _tac self ++ new;
  lowered_vars : _vars self' = _vars self;
  lowered_counter : _counter self ≤ _counter self';
  lowered_minted : Forall (minted_in (_counter self) (_counter self')) new;
  lowered_nodup : NoDup (results new);
  lowered_ordered :
    ∀ known, covers_vars self known → defined_in_order known new;
}.

(** The target of a lowered expression is a bound variable or a result of
    the block. *)
Definition defined_after (self : MM) (new : list TAC) (t : string) : Prop :=
  ∀ known, covers_vars self known → t ∈ known ++ results new.

Definition expression_lowered (e : Expression) : Prop :=
  ∀ self t self',
    for_expression e self = Ok (t, self') →
    ∃ new, lowered self self' new ∧ defined_after self new t.

(** The invariant of an [MM] instance, relative to the temporaries
    [declared] so far: variables are bound to declared temporaries, every
    temporary in sight was minted at or below the counter, no temporary
    outside [declared] is written twice, and every argument temporary is
    declared or written earlier. *)
Definition minted_upto (hi : Z) (t : string) : Prop :=
  ∃ k, t = temp_name k ∧ k ≤ hi.

Record invariant (declared : list string) (self : MM) : Prop := {
  inv_vars : covers_vars self declared;
  inv_results : Forall (minted_upto (_counter self)) (results (_tac self));
  inv_declared : Forall (minted_upto (_counter self)) declared;
  inv_single : single_assignment_except declared (_tac self);
  inv_ordered : defined_in_order declared (_tac self);
}.

(** *** The lowering under the recursion limit *)






End Skeleton.

(** ** Labs1/tac2arm.py *)

Module Tac2arm.
Import Py.
Import Skeleton.

Definition TAB : string := String "009"%char EmptyString.
Definition NL : string := String "010"%char EmptyString.

(** [sep.join(xs)] *)
Fixpoint join (sep : string) (xs : list string) : string :=
  match xs with
  | [] => EmptyString
  | [x] => x
  | x :: xs' => x +:+ sep +:+ join sep xs'
  end.

Record CodeEmitter : Type := {
  _temps : gmap string nat;
  _asm : list string;
}.

Definition CodeEmitter_init : CodeEmitter := {| _temps := ∅; _asm := [] |}.

(** The operand text of slot [index]. *)
Definition slot (index : nat) : string :=
  "[SP, #" +:+ pretty (8 * index)%nat +:+ "]".

(** [setdefault] leaves an existing binding alone and otherwise binds the
    key to the current size of the dict. *)
Definition _temp (temp : string) (self : CodeEmitter)
  : string * CodeEmitter :=
  match _temps self !! temp with
  | Some index => (slot index, self)
  | None =>
      let index := size (_temps self) in
      (slot index,
       {| _temps := <[temp := index]> (_temps self); _asm := _asm self |})
  end.

Definition _get_asm (opcode : string) (args : list string) : string :=
  match args with
  | [] => opcode
  | _ => opcode +:+ TAB +:+ join ", " args
  end.

Definition _emit (opcode : string) (args : list string)
  (self : CodeEmitter) : CodeEmitter :=
  {| _temps := _temps self; _asm := _asm self ++ [_get_asm opcode args] |}.

Definition _emit_const (ctt dst : string) (self : CodeEmitter)
  : CodeEmitter :=
  let self := _emit "mov" ["X2"; "#" +:+ ctt] self in
  let '(d, self) := _temp dst self in
  _emit "str" ["X2"; d] self.

Definition _emit_copy (src dst : string) (self : CodeEmitter)
  : CodeEmitter :=
  let '(s, self) := _temp src self in
  let self := _emit "ldr" ["X2"; s] self in
  let '(d, self) := _temp dst self in
  _emit "str" ["X2"; d] self.

Definition _emit_alu2 (opcode op1 op2 dst : string) (self : CodeEmitter)
  : CodeEmitter :=
  let '(a, self) := _temp op1 self in
  let self := _emit "ldr" ["X0"; a] self in
  let '(b, self) := _temp op2 self in
  let self := _emit "ldr" ["X1"; b] self in
  let self := _emit opcode ["X2"; "X0"; "X1"] self in
  let '(d, self) := _temp dst self in
  _emit "str" ["X2"; d] self.

Definition _emit_add := _emit_alu2 "add".
Definition _emit_sub := _emit_alu2 "sub".
Definition _emit_mul := _emit_alu2 "mul".
Definition _emit_div := _emit_alu2 "sdiv".

Definition _emit_mod (op1 op2 dst : string) (self : CodeEmitter)
  : CodeEmitter :=
  let '(a, self) := _temp op1 self in
  let self := _emit "ldr" ["X0"; a] self in
  let '(b, self) := _temp op2 self in
  let self := _emit "ldr" ["X1"; b] self in
  let self := _emit "sdiv" ["X2"; "X0"; "X1"] self in
  let self := _emit "mul" ["X2"; "X2"; "X1"] self in
  let self := _emit "sub" ["X2"; "X0"; "X2"] self in
  let '(d, self) := _temp dst self in
  _emit "str" ["X2"; d] self.

Definition _emit_and := _emit_alu2 "and".
Definition _emit_or := _emit_alu2 "orr".
Definition _emit_xor := _emit_alu2 "eor".
Definition _emit_shl := _emit_alu2 "lsl".
Definition _emit_shr := _emit_alu2 "lsr".

Definition _emit_print (arg : string) (self : CodeEmitter) : CodeEmitter :=
  let '(a, self) := _temp arg self in
  let self := _emit "ldr" ["X2"; a] self in
  let self := _emit "stp" ["X29"; "X30"; "[SP, #-16]!"] self in
  let self := _emit "str" ["X2"; "[SP, #-16]!"] self in
  let self := _emit "adrp" ["X0"; "l._dformat@PAGE"] self in
  let self := _emit "add" ["X0"; "X0"; "l._dformat@PAGEOFF"] self in
  let self := _emit "bl" ["_printf"] self in
  let self := _emit "add" ["SP"; "SP"; "#16"] self in
  _emit "ldp" ["X29"; "X30"; "[SP]"; "#16"] self.

(** A bound method applied to [*args].  The emitter is mutated in place, so
    a call leaves a state behind whether it returns or raises: the outcome is
    the exception, if any, and the state.  A wrong number of arguments is a
    [TypeError], raised before the body runs. *)
Definition outcome : Type := option exn * CodeEmitter.
Definition method : Type := list string → CodeEmitter → outcome.

Definition arity1 (f : string → CodeEmitter → CodeEmitter) : method :=
  λ args self,
    match args with
    | [a] => (None, f a self)
    | _ => (Some TypeError, self)
    end.

Definition arity2 (f : string → string → CodeEmitter → CodeEmitter)
  : method :=
  λ args self,
    match args with
    | [a; b] => (None, f a b self)
    | _ => (Some TypeError, self)
    end.

Definition arity3
  (f : string → string → string → CodeEmitter → CodeEmitter) : method :=
  λ args self,
    match args with
    | [a; b; c] => (None, f a b c self)
    | _ => (Some TypeError, self)
    end.

Definition arity4
  (f : string → string → string → string → CodeEmitter → CodeEmitter)
  : method :=
  λ args self,
    match args with
    | [a; b; c; d] => (None, f a b c d self)
    | _ => (Some TypeError, self)
    end.

(** The attributes of a [CodeEmitter] whose name starts with [_emit_], in
    the order of the class body.  No other attribute of the instance, of the
    class or of [object] has such a name, so [getattr(self, '_emit_' + x)]
    is a lookup in this table. *)
Definition emit_attributes : list (string * method) :=
  [("_emit_const", arity2 _emit_const);
   ("_emit_copy", arity2 _emit_copy);
   ("_emit_alu2", arity4 _emit_alu2);
   ("_emit_add", arity3 _emit_add);
   ("_emit_sub", arity3 _emit_sub);
   ("_emit_mul", arity3 _emit_mul);
   ("_emit_div", arity3 _emit_div);
   ("_emit_mod", arity3 _emit_mod);
   ("_emit_and", arity3 _emit_and);
   ("_emit_or", arity3 _emit_or);
   ("_emit_xor", arity3 _emit_xor);
   ("_emit_shl", arity3 _emit_shl);
   ("_emit_shr", arity3 _emit_shr);
   ("_emit_print", arity1 _emit_print)].

Definition getattr_emit (name : string) : Py.result method :=
  match assoc name emit_attributes with
  | Some m => Ok m
  | None => Raise (AttributeError name)
  end.

(** The opcodes [getattr] resolves: the names of [emit_attributes] without
    their prefix. *)
Definition emit_opcodes : list string :=
  ["const"; "copy"; "alu2"; "add"; "sub"; "mul"; "div"; "mod"; "and"; "or";
   "xor"; "shl"; "shr"; "print"].

(** The positional arguments [__call__] builds: [args], then [result]
    unless it is [None]. *)
Definition operands (instr : TAC) : list string :=
  arguments instr ++ option_list (result instr).

(** [__call__] on the three entries read from the instruction dict. *)
Definition dispatch (instr : TAC) (self : CodeEmitter) : outcome :=
  let args := operands instr in
  match getattr_emit ("_emit_" +:+ opcode instr) with
  | Ok m => m args self
  | Raise e => (Some e, self)
  end.

(** The three reads of [__call__]: [instr['opcode']], [instr['args']] and
    [instr['result']], for the entries of the interchange format: a string,
    a list of strings and a string or [None].  [__call__] itself checks no
    type and hands entries of any other type to the routines; such entries
    are not modelled, and [TypeError] stands for them here. *)
Definition as_str (v : json) : Py.result string :=
  match v with
  | JString s => Ok s
  | _ => Raise TypeError
  end.

Definition as_str_list (v : json) : Py.result (list string) :=
  match v with
  | JList xs => list_of_gen as_str xs
  | _ => Raise TypeError
  end.

Definition as_optional_str (v : json) : Py.result (option string) :=
  match v with
  | JNull => Ok None
  | JString s => Ok (Some s)
  | _ => Raise TypeError
  end.

Definition read_instr (instr : json) : Py.result TAC :=
  opcode ← (getitem_str instr "opcode" ≫= as_str);
  args ← (getitem_str instr "args" ≫= as_str_list);
  result ← (getitem_str instr "result" ≫= as_optional_str);
  Ok (Build_TAC opcode args result).

Definition call (instr : json) (self : CodeEmitter) : outcome :=
  match read_instr instr with
  | Ok i => dispatch i self
  | Raise e => (Some e, self)
  end.

(** [nvars], after [nvars += nvars & 1]. *)
Definition frame_slots (self : CodeEmitter) : Z :=
  let nvars := Z.of_nat (size (_temps self)) in
  nvars + Z.land nvars 1.

(** The list [aout] of [code]. *)
Definition code_lines (self : CodeEmitter) : list string :=
  let nvars := frame_slots self in
  [_get_asm "sub" ["SP"; "SP"; "#" +:+ pretty (8 * nvars)]]
  ++ _asm self
  ++ [_get_asm "add" ["SP"; "SP"; "#" +:+ pretty (8 * nvars)]].

Definition code (self : CodeEmitter) : string :=
  join NL ((λ x, TAB +:+ x) <$> code_lines self).

(** [[x for x in tac if x['proc'] == '@main']] *)
Fixpoint select_main (procs : list json) : Py.result (list json) :=
  match procs with
  | [] => Ok []
  | x :: procs' =>
      name ← getitem_str x "proc";
      rest ← select_main procs';
      Ok (if is_str name "@main" then x :: rest else rest)
  end.

(** [main] of [_main]: the body of the first procedure named [@main]. *)
Definition main_body (tac : json) : Py.result json :=
  procs ← iterate tac;
  mains ← select_main procs;
  first ← getitem_int (JList mains) 0;
  getitem_str first "body".

(** The instruction sequence the backend reads from a document. *)
Definition read_document (tac : json) : Py.result (list TAC) :=
  main ← main_body tac;
  instrs ← iterate main;
  list_of_gen read_instr instrs.

(** [for instr in body: emitter(instr)] on instructions already read: the
    loop stops at the first exception. *)
Fixpoint emit_all (body : list TAC) (self : CodeEmitter) : outcome :=
  match body with
  | [] => (None, self)
  | instr :: body' =>
      match dispatch instr self with
      | (None, self) => emit_all body' self
      | raised => raised
      end
  end.

(** The effect of [_temp] on the dict of slots. *)
Definition touch (temps : gmap string nat) (temp : string)
  : gmap string nat :=
  match temps !! temp with
  | Some _ => temps
  | None => <[temp := size temps]> temps
  end.

(** The operands the routine of an instruction passes to [_temp], in the
    order of the calls: all of them, except the immediate of [const] and
    the mnemonic handed to the shared [alu2] routine. *)
Definition temps_of (instr : TAC) : list string :=
  if bool_decide (opcode instr = "const" ∨ opcode instr = "alu2")
  then tail (operands instr)
  else operands instr.

Definition referenced (body : list TAC) : list string :=
  body ≫= temps_of.

(** The first-use order after one more reference. *)
Definition use (seen : list string) (t : string) : list string :=
  if bool_decide (t ∈ seen) then seen else seen ++ [t].

(** The distinct elements of a list, in order of first occurrence. *)
Definition first_uses (refs : list string) : list string :=
  foldl use [] refs.

(** The interchange format: an instruction object has exactly the keys
    [opcode], [args] and [result], holding a string, a list of strings and
    a string or [None]; a procedure object has exactly the keys [proc] and
    [body], holding a string and a list of instruction objects; a document
    is a list of procedure objects. *)
Definition interchange_instr (d : json) : Prop :=
  ∃ fs op args res,
    d = JObject fs
    ∧ fs.*1 ≡ₚ ["opcode"; "args"; "result"]
    ∧ assoc "opcode" fs = Some (JString op)
    ∧ assoc "args" fs = Some (JList (JString <$> args))
    ∧ assoc "result" fs = Some (from_option JString JNull res).

Definition interchange_proc (name : string) (d : json) : Prop :=
  ∃ fs body,
    d = JObject fs
    ∧ fs.*1 ≡ₚ ["proc"; "body"]
    ∧ assoc "proc" fs = Some (JString name)
    ∧ assoc "body" fs = Some (JList body)
    ∧ Forall interchange_instr body.

Definition interchange_document (d : json) : Prop :=
  ∃ procs,
    d = JList procs ∧ Forall (λ p, ∃ name, interchange_proc name p) procs.

(** A document holding the procedure [@main] and nothing else. *)
Definition single_main_document (d : json) : Prop :=
  ∃ p, d = JList [p] ∧ interchange_proc "@main" p.

(** The dict of slots numbers the temporaries of [order] by position. *)
Record slots (order : list string) (temps : gmap string nat) : Prop := {
  slots_nodup : NoDup order;
  slots_size : size temps = length order;
  slots_lookup : ∀ t i, temps !! t = Some i ↔ order !! i = Some t;
}.

End Tac2arm.

(** ** Concrete inputs *)

Module Scenarios.
Import Py.

(** The name node [["<name>", {"value": s}]]. *)
Definition name_node (s : string) : json :=
  JList [JString "<name>"; JObject [("value", JString s)]].

(** The literal node [["<expression:int>", {"value": n}]]. *)
Definition int_node (n : Z) : json :=
  JList [JString "<expression:int>"; JObject [("value", JInt n)]].

(** The payload of an [eval] statement holding the call [target(args)]. *)
Definition eval_call (target : string) (args : list json) : json :=
  JObject
    [("expression",
      JList [JString "<expression:call>";
             JObject [("target", name_node target);
                      ("arguments", JList args)]])].

Definition x : Skeleton.Name := {| Skeleton.value := "x" |}.

(** [var x; x = 1 + 2; print x;] *)
Definition scenario_A : Skeleton.Program :=
  [Skeleton.VarDeclStatement x None;
   Skeleton.AssignStatement x
     (Skeleton.OpAppExpression "addition"
        [Skeleton.IntExpression 1; Skeleton.IntExpression 2]);
   Skeleton.PrintStatement (Skeleton.VarExpression x)].

(** The five instructions the specification gives for scenario A, its
    temporaries [t0] to [t3] written [%0] to [%3]. *)
Definition scenario_A_in_spec : list Skeleton.TAC :=
  [Skeleton.Build_TAC "const" ["1"] (Some "%0");
   Skeleton.Build_TAC "const" ["2"] (Some "%1");
   Skeleton.Build_TAC "add" ["%0"; "%1"] (Some "%2");
   Skeleton.Build_TAC "copy" ["%2"] (Some "%3");
   Skeleton.Build_TAC "print" ["%3"] None].

(** Renaming the temporaries of an instruction. *)
Definition rename_temporaries (f : string → string) (instr : Skeleton.TAC)
  : Skeleton.TAC :=
  {| Skeleton.opcode := Skeleton.opcode instr;
     Skeleton.arguments :=
       (λ a, if Skeleton.is_temporary a then f a else a)
         <$> Skeleton.arguments instr;
     Skeleton.result := f <$> Skeleton.result instr |}.

(** [var x; print x;] *)
Definition declared_then_read : Skeleton.Program :=
  [Skeleton.VarDeclStatement x None;
   Skeleton.PrintStatement (Skeleton.VarExpression x)].

(** [var x; x = 1; x = 2;] *)
Definition assigned_twice : Skeleton.Program :=
  [Skeleton.VarDeclStatement x None;
   Skeleton.AssignStatement x (Skeleton.IntExpression 1);
   Skeleton.AssignStatement x (Skeleton.IntExpression 2)].

(** The opcodes for which the specification gives a lowering rule. *)
Definition opcodes_in_spec : list string :=
  ["const"; "copy"; "add"; "sub"; "mul"; "div"; "and"; "or"; "xor"; "shl";
   "shr"; "mod"; "neg"; "not"; "print"].

(** An instruction whose opcode is the name of the shared ALU routine. *)
Definition alu2_instr : Skeleton.TAC :=
  Skeleton.Build_TAC "alu2" ["add"; "%0"; "%1"] (Some "%2").

(** A document with an empty [@main] and a second, empty, procedure. *)
Definition two_procedures : json :=
  JList [JObject [("proc", JString "@main"); ("body", JList [])];
         JObject [("proc", JString "@f"); ("body", JList [])]].

(** The body of a program printing [7 % 3]. *)
Definition scenario_C : list Skeleton.TAC :=
  [Skeleton.Build_TAC "const" ["7"] (Some "%0");
   Skeleton.Build_TAC "const" ["3"] (Some "%1");
   Skeleton.Build_TAC "mod" ["%0"; "%1"] (Some "%2");
   Skeleton.Build_TAC "print" ["%2"] None].

Definition frobnicate_instr : Skeleton.TAC :=
  Skeleton.Build_TAC "frobnicate" ["%0"] (Some "%1").

(** [print -1;] and the body it is lowered to. *)
Definition print_negation : Skeleton.Program :=
  [Skeleton.PrintStatement
     (Skeleton.OpAppExpression "opposite" [Skeleton.IntExpression 1])].

Definition negation_body : list Skeleton.TAC :=
  [Skeleton.Build_TAC "const" ["1"] (Some "%1");
   Skeleton.Build_TAC "neg" ["%1"] (Some "%0");
   Skeleton.Build_TAC "print" ["%0"] None].

End Scenarios.

(** ** Notions used to state further properties of Labs1/bxc.py *)

Module BxcNotions.
Import Py.
Import Bxc.

(** A word: a non-empty string of [\w] characters. *)
Fixpoint all_word (s : string) : bool :=
  match s with
  | EmptyString => true
  | String c s' => is_word c && all_word s'
  end.

Definition word (s : string) : Prop := s ≠ EmptyString ∧ all_word s = true.

(** Text made of characters below 128. *)
Fixpoint ascii_only (s : string) : bool :=
  match s with
  | EmptyString => true
  | String c s' => (nat_of_ascii c <? 128)%nat && ascii_only s'
  end.

(** The tag string of a class and an optional kind: [<class>] or
    [<class:kind>]. *)
Definition format_tag (clazz : string) (kind : option string) : string :=
  String "<"
    (clazz +:+ match kind with
               | Some k => String ":" (k +:+ ">")
               | None => ">"
               end).

(** What may follow the longest prefix of word characters. *)
Definition stops (r : string) : Prop :=
  match r with
  | EmptyString => True
  | String c _ => is_word c = false
  end.

Definition newline : string := String "010" EmptyString.

(** What one schema entry asks of the fields of a dict. *)
Definition field_ok (fs : list (string * json)) (entry : string * etype)
  : Prop :=
  match entry.2 with
  | ENone => is_Some (assoc entry.1 fs)
  | EClass clazz =>
      ∃ tag payload kind,
        assoc entry.1 fs = Some (JList [JString tag; payload])
        ∧ parse_tag tag = Ok (clazz, kind)
  | EInt =>
      ∃ v, assoc entry.1 fs = Some v
           ∧ ((∃ n, v = JInt n) ∨ (∃ b, v = JBool b))
  end.

(** The node [["<expression:K>", payload]] is given as tag and payload. *)
Definition binop_fields (fs : list (string * json))
  (po : json) (tl : string) (pl : json) (tr : string) (pr : json) : Prop :=
  (∃ tago ko, assoc "operator" fs = Some (JList [JString tago; po])
              ∧ parse_tag tago = Ok ("name", ko))
  ∧ (∃ kl, assoc "left" fs = Some (JList [JString tl; pl])
           ∧ parse_tag tl = Ok ("expression", kl))
  ∧ (∃ kr, assoc "right" fs = Some (JList [JString tr; pr])
           ∧ parse_tag tr = Ok ("expression", kr)).

Definition uniop_fields (fs : list (string * json))
  (po : json) (ta : string) (pa : json) : Prop :=
  (∃ tago ko, assoc "operator" fs = Some (JList [JString tago; po])
              ∧ parse_tag tago = Ok ("name", ko))
  ∧ (∃ ka, assoc "argument" fs = Some (JList [JString ta; pa])
           ∧ parse_tag ta = Ok ("expression", ka)).

Definition name_field (fs : list (string * json)) (p : json) : Prop :=
  ∃ tag k, assoc "name" fs = Some (JList [JString tag; p])
           ∧ parse_tag tag = Ok ("name", k).

Definition assign_fields (fs : list (string * json))
  (pl : json) (tr : string) (pr : json) : Prop :=
  (∃ tagl kl, assoc "lvalue" fs = Some (JList [JString tagl; pl])
              ∧ parse_tag tagl = Ok ("lvalue", kl))
  ∧ (∃ kr, assoc "rvalue" fs = Some (JList [JString tr; pr])
           ∧ parse_tag tr = Ok ("expression", kr)).

(** The exceptions the expression decoder lets through. *)
Definition decode_error (e : exn) : Prop :=
  e = InvalidBXJSon ∨ e = TypeError ∨ e = KeyError (JString "value").

End BxcNotions.

(** ** Notions used to state the properties of the lowering *)

Module SkeletonNotions.
Import Py.
Import Skeleton.



(** The literals and operator applications of an expression. *)
Fixpoint nodes (e : Expression) : nat :=
  match e with
  | VarExpression _ => 0
  | IntExpression _ => 1
  | OpAppExpression _ es => S (sum_list (nodes <$> es))
  end.

(** The expression a statement lowers, if any. *)
Definition lowered_expression (stmt : Statement) : option Expression :=
  match stmt with
  | VarDeclStatement _ _ => None
  | AssignStatement _ rhs => Some rhs
  | PrintStatement v => Some v
  end.

(** The temporaries a statement mints. *)
Definition temporaries (stmt : Statement) : nat :=
  match stmt with
  | VarDeclStatement _ _ => 1
  | AssignStatement _ rhs => nodes rhs
  | PrintStatement v => nodes v
  end.

(** The instructions a statement pushes. *)
Definition instructions (stmt : Statement) : nat :=
  match stmt with
  | VarDeclStatement _ _ => 1
  | AssignStatement _ rhs => S (nodes rhs)
  | PrintStatement v => S (nodes v)
  end.

(** Every operator application has two arguments and an operator other
    than the two unary ones. *)
Fixpoint binary (e : Expression) : bool :=
  match e with
  | OpAppExpression operator es =>
      forallb binary es
      && bool_decide (length es = 2%nat)
      && bool_decide (operator ∉ ["opposite"; "bitwise-negation"])
  | _ => true
  end.

Definition binary_program (prgm : Program) : bool :=
  forallb (λ stmt, from_option binary true (lowered_expression stmt)) prgm.

End SkeletonNotions.

(** ** Notions used to state the properties of the emitter *)

Module Tac2armNotions.
Import Py.
Import Skeleton.
Import Tac2arm.

(** The number of parameters, after [self], of the method
    [_emit_<opcode>], if the class has one. *)
Definition emit_arity (opcode : string) : option nat :=
  if bool_decide (opcode ∈ emit_opcodes) then
    Some (if bool_decide (opcode = "print") then 1%nat
          else if bool_decide (opcode ∈ ["const"; "copy"]) then 2%nat
          else if bool_decide (opcode = "alu2") then 4%nat
          else 3%nat)
  else None.

(** The exception [__call__] ends with on an instruction, if any. *)
Definition rejection (instr : TAC) : option exn :=
  match emit_arity (opcode instr) with
  | None => Some (AttributeError ("_emit_" +:+ opcode instr))
  | Some n =>
      if bool_decide (length (operands instr) = n) then None
      else Some TypeError
  end.

(** The instructions of a body before the first one [__call__] rejects:
    all of them when none is rejected. *)
Fixpoint accepted_prefix (body : list TAC) : list TAC :=
  match body with
  | [] => []
  | instr :: body' =>
      match rejection instr with
      | None => instr :: accepted_prefix body'
      | Some _ => []
      end
  end.

(** The lines the routine of an opcode appends. *)
Definition emitted_lines (instr : TAC) : nat :=
  if bool_decide (opcode instr = "print") then 8%nat
  else if bool_decide (opcode instr = "mod") then 6%nat
  else if bool_decide (opcode instr ∈ ["const"; "copy"]) then 2%nat
  else 4%nat.

(** [x['proc'] == '@main'] *)
Definition named_main (x : json) : bool :=
  match getitem_str x "proc" with
  | Ok name => is_str name "@main"
  | Raise _ => false
  end.

End Tac2armNotions.

(** ** Notions used to relate the lowering and the emitter *)

Module PipelineNotions.
Import Py.
Import Skeleton.
Import SkeletonNotions.
Import Tac2arm.
Import Tac2armNotions.

(** The instructions lowering [e] pushes are all accepted by the emitter
    exactly when [e] is binary. *)
Definition lowers_binary (e : Expression) : Prop :=
  ∀ self t self',
    for_expression e self = Ok (t, self') →
    ∃ new, _tac self' = _tac self ++ new
           ∧ (Forall (λ i, rejection i = None) new ↔ binary e = true).

End PipelineNotions.

(** * Properties *)

(** ** The decoder of Labs1/bxc.py *)

Module BxcFacts.
Import Py.
Import Bxc.

(** *** The recursion bound of [expression_of_json] is never reached *)

Lemma assoc_depth (k : string) (fs : list (string * json)) (v : json) :
  assoc k fs = Some v → (json_depth v < json_depth (JObject fs))%nat.
Proof.
  induction fs as [|[k' v'] fs IH]; simpl; [discriminate|].
  destruct (String.eqb k k').
  - intros [= ->]. lia.
  - intros H. specialize (IH H). simpl in IH. lia.
Qed.

Lemma getitem_str_depth (data v : json) (k : string) :
  getitem_str data k = Ok v → (json_depth v < json_depth data)%nat.
Proof.
  destruct data; simpl; try discriminate.
  destruct (assoc k fields) eqn:E; [|discriminate].
  intros [= <-]. by apply (assoc_depth k).
Qed.

Lemma chars_depth (s : string) (x : json) :
  x ∈ chars s → json_depth x = O.
Proof.
  induction s as [|c s IH]; simpl; [by intros ?%elem_of_nil|].
  intros [->|H]%elem_of_cons; [done|by apply IH].
Qed.

Lemma list_depth (xs : list json) (x : json) :
  x ∈ xs → (json_depth x < json_depth (JList xs))%nat.
Proof.
  induction xs as [|y xs IH]; [by intros ?%elem_of_nil|].
  intros [->|H]%elem_of_cons; simpl.
  - lia.
  - specialize (IH H). simpl in IH. lia.
Qed.

Lemma iterate_depth (v x : json) (items : list json) :
  iterate v = Ok items → x ∈ items → (json_depth x ≤ json_depth v)%nat.
Proof.
  destruct v; simpl; try discriminate; intros [= <-] Hx.
  - rewrite (chars_depth _ _ Hx). lia.
  - apply list_depth in Hx. simpl in Hx. lia.
  - apply list_elem_of_fmap in Hx as [kv [-> _]]. simpl. lia.
Qed.

(** [f( *v )] only depends on [f] at items of [v]. *)
Lemma star2_ext {A} (f g : json → json → result A) (v : json) :
  (∀ a b, (json_depth b ≤ json_depth v)%nat → f a b = g a b) →
  star2 f v = star2 g v.
Proof.
  intros Hfg. unfold star2.
  destruct (iterate v) as [items|e] eqn:E; [|done]. simpl.
  destruct items as [|a [|b [|c items]]]; try done.
  apply Hfg, (iterate_depth v b [a; b] E). set_solver.
Qed.

Lemma field_star2_ext {A} (f g : json → json → result A) (data : json)
  (k : string) :
  (∀ a b, (json_depth b < json_depth data)%nat → f a b = g a b) →
  getitem_str data k ≫= star2 f = getitem_str data k ≫= star2 g.
Proof.
  intros Hfg. destruct (getitem_str data k) as [v|e] eqn:E; [|done]. simpl.
  apply star2_ext. intros a b Hb. apply Hfg.
  apply getitem_str_depth in E. lia.
Qed.

(** The body calls [self] only on values nested strictly inside [data]. *)
Lemma expression_of_json_body_ext
  (self1 self2 : json → json → result Expression) (tag data : json) :
  (∀ a b, (json_depth b < json_depth data)%nat → self1 a b = self2 a b) →
  expression_of_json_body self1 tag data
  = expression_of_json_body self2 tag data.
Proof.
  intros Hself. unfold expression_of_json_body.
  destruct (parse_tag_value tag) as [[clazz kind]|e]; [|done]. simpl.
  destruct (negb _); [done|].
  destruct kind as [k|]; [|done]. simpl.
  destruct (String.eqb k "var"); [done|].
  destruct (String.eqb k "int"); [done|].
  destruct (String.eqb k "uniop").
  { destruct (check_shallow_schema _ _); [|done]. simpl.
    unfold expression_uniop_of_json.
    by rewrite (field_star2_ext self1 self2 data "argument" Hself). }
  destruct (String.eqb k "binop"); [|done].
  destruct (check_shallow_schema _ _); [|done]. simpl.
  unfold expression_binop_of_json.
  rewrite (field_star2_ext self1 self2 data "left" Hself).
  by rewrite (field_star2_ext self1 self2 data "right" Hself).
Qed.

Lemma expression_of_json_upto_stable (n m : nat) (tag data : json) :
  (json_depth data < n)%nat → (json_depth data < m)%nat →
  expression_of_json_upto n tag data = expression_of_json_upto m tag data.
Proof.
  revert m tag data. induction n as [|n IH]; intros m tag data Hn Hm; [lia|].
  destruct m as [|m]; [lia|]. simpl.
  apply expression_of_json_body_ext. intros a b Hb. apply IH; lia.
Qed.

(** [expression_of_json] satisfies the recursive equation of the source. *)
Lemma expression_of_json_unfold (tag data : json) :
  expression_of_json tag data
  = expression_of_json_body expression_of_json tag data.
Proof.
  unfold expression_of_json at 1. simpl.
  apply expression_of_json_body_ext. intros a b Hb.
  unfold expression_of_json. apply expression_of_json_upto_stable; lia.
Qed.

(** The decoder never raises the [RecursionError] of the bound. *)
Lemma getitem_str_raises (v : json) (k : string) (e : exn) :
  getitem_str v k = Raise e → e = KeyError (JString k) ∨ e = TypeError.
Proof.
  destruct v; simpl; try (intros [= <-]; by right).
  destruct (assoc k fields); [done|]. intros [= <-]. by left.
Qed.

Lemma getitem_int_raises (v : json) (i : nat) (e : exn) :
  getitem_int v i = Raise e → e ≠ RecursionError.
Proof.
  destruct v; simpl; try (by intros [= <-]).
  - by destruct (string_nth i s); [|intros [= <-]].
  - by destruct (xs !! i); [|intros [= <-]].
Qed.

Lemma parse_name_raises (name : json) (e : exn) :
  parse_name name = Raise e → e ≠ RecursionError.
Proof.
  unfold parse_name.
  destruct (getitem_int name 1) as [n1|e1] eqn:E1; simpl.
  - destruct (getitem_str n1 "value") as [v|e2] eqn:E2; simpl; [done|].
    apply getitem_str_raises in E2 as [->| ->]; by intros [= <-].
  - apply getitem_int_raises in E1. destruct e1; by intros [= <-].
Qed.

Lemma field_star2_raises {A} (f : json → json → result A) (data : json)
  (k : string) :
  (∀ a b, (json_depth b < json_depth data)%nat →
          f a b ≠ Raise RecursionError) →
  getitem_str data k ≫= star2 f ≠ Raise RecursionError.
Proof.
  intros Hf. destruct (getitem_str data k) as [v|e] eqn:E; simpl.
  - apply getitem_str_depth in E. unfold star2.
    destruct (iterate v) as [items|e] eqn:Ei; simpl;
      [|destruct v; simpl in Ei; by simplify_eq].
    destruct items as [|a [|b [|c items]]]; try done.
    apply Hf. assert (b ∈ [a; b]) as Hb.
    { apply elem_of_cons. right. by apply list_elem_of_singleton. }
    pose proof (iterate_depth v b [a; b] Ei Hb). lia.
  - apply getitem_str_raises in E as [->| ->]; done.
Qed.

Lemma field_name_raises (data : json) (k : string) :
  getitem_str data k ≫= parse_name ≠ Raise RecursionError.
Proof.
  destruct (getitem_str data k) as [v|e] eqn:E; simpl.
  - intros H. by apply parse_name_raises in H.
  - apply getitem_str_raises in E as [->| ->]; done.
Qed.

Lemma parse_tag_raises (tag : string) (e : exn) :
  parse_tag tag = Raise e → e = InvalidBXJSon.
Proof.
  unfold parse_tag. intros H.
  repeat (case_match; simplify_eq; try done).
Qed.

Lemma check_fields_raises (fs : list (string * json))
  (schema : list (string * etype)) (e : exn) :
  check_fields fs schema = Raise e → e = InvalidBXJSon.
Proof.
  induction schema as [|entry schema IH]; simpl; [done|].
  destruct (check_field fs entry) as [[]|e'] eqn:E; simpl; [done|].
  intros [= <-]. unfold check_field in E.
  repeat (case_match; simplify_eq; try done).
  destruct (parse_tag _) as [[]|e''] eqn:Etag; simpl in E.
  - by case_match; simplify_eq.
  - simplify_eq. by eapply parse_tag_raises.
Qed.

Lemma check_shallow_schema_raises (data : json)
  (schema : list (string * etype)) (e : exn) :
  check_shallow_schema data schema = Raise e → e = InvalidBXJSon.
Proof.
  destruct data; simpl; try (by intros [= <-]). apply check_fields_raises.
Qed.

Lemma bind_raises {A B} (m : result A) (f : A → result B) :
  m ≠ Raise RecursionError → (∀ a, f a ≠ Raise RecursionError) →
  m ≫= f ≠ Raise RecursionError.
Proof.
  intros Hm Hf. destruct m as [a|e]; simpl; [apply Hf|].
  intros [= ->]. by apply Hm.
Qed.

Lemma expression_of_json_body_raises
  (self : json → json → result Expression) (tag data : json) :
  (∀ a b, (json_depth b < json_depth data)%nat →
          self a b ≠ Raise RecursionError) →
  expression_of_json_body self tag data ≠ Raise RecursionError.
Proof.
  intros Hself. unfold expression_of_json_body.
  destruct (parse_tag_value tag) as [[clazz kind]|e] eqn:Etag; simpl.
  2: { destruct tag; simpl in Etag; simplify_eq; try done.
       by apply parse_tag_raises in Etag as ->. }
  destruct (negb _); [done|].
  destruct kind as [k|]; [|done]. simpl.
  pose proof (check_shallow_schema_raises data) as Hschema.
  repeat (destruct (String.eqb k _); [
    match goal with
    | |- context [check_shallow_schema data ?sch] =>
        specialize (Hschema sch);
        destruct (check_shallow_schema data sch) as [[]|e]; simpl;
        [clear Hschema|by rewrite (Hschema e eq_refl)]
    end|]); try done.
  - apply bind_raises; [apply field_name_raises|done].
  - apply bind_raises; [|done].
    destruct (getitem_str data "value") as [v|e] eqn:E; [done|].
    apply getitem_str_raises in E as [->| ->]; done.
  - apply bind_raises; [apply field_name_raises|]. intros operator.
    apply bind_raises; [by apply field_star2_raises|done].
  - apply bind_raises; [apply field_name_raises|]. intros operator.
    apply bind_raises; [by apply field_star2_raises|]. intros left.
    apply bind_raises; [by apply field_star2_raises|done].
Qed.

Lemma expression_of_json_terminates (tag data : json) :
  expression_of_json tag data ≠ Raise RecursionError.
Proof.
  remember (json_depth data) as n eqn:En. revert tag data En.
  induction (lt_wf n) as [n _ IH]. intros tag data ->.
  rewrite expression_of_json_unfold.
  apply expression_of_json_body_raises. intros a b Hb.
  by eapply IH.
Qed.

(** *** Tags *)

Lemma parse_tag_bare_expression :
  parse_tag "<expression>" = Ok ("expression", None).
Proof. reflexivity. Qed.

Lemma parse_tag_bare_statement :
  parse_tag "<statement>" = Ok ("statement", None).
Proof. reflexivity. Qed.

(** A tag without a kind is rejected by both decoders, whatever its class
    and whatever the payload. *)
Lemma kindless_tag_rejected (tag clazz : string) (data : json) :
  parse_tag tag = Ok (clazz, None) →
  expression_of_json (JString tag) data = Raise InvalidBXJSon
  ∧ statement_of_json (JString tag) data = Raise InvalidBXJSon.
Proof.
  intros Htag. split.
  - rewrite expression_of_json_unfold. unfold expression_of_json_body.
    simpl. rewrite Htag. simpl. by destruct (negb _).
  - unfold statement_of_json. simpl. rewrite Htag. simpl.
    by destruct (negb _).
Qed.

(** C10. The bare tags [<expression>] and [<statement>] are accepted by
    [parse_tag], which returns their class with kind [None]; but
    [expression_of_json] and [statement_of_json] reject every node carrying
    one of them with [InvalidBXJSon], since [None] is not a key of
    [JSON_EXPRESSIONS] or [JSON_STATEMENTS]. *)
Theorem bare_class_tag_never_decodes (data : json) :
  parse_tag "<expression>" = Ok ("expression", None)
  ∧ parse_tag "<statement>" = Ok ("statement", None)
  ∧ expression_of_json (JString "<expression>") data = Raise InvalidBXJSon
  ∧ statement_of_json (JString "<expression>") data = Raise InvalidBXJSon
  ∧ expression_of_json (JString "<statement>") data = Raise InvalidBXJSon
  ∧ statement_of_json (JString "<statement>") data = Raise InvalidBXJSon.
Proof.
  pose proof (kindless_tag_rejected _ _ data parse_tag_bare_expression)
    as [He1 Hs1].
  pose proof (kindless_tag_rejected _ _ data parse_tag_bare_statement)
    as [He2 Hs2].
  repeat split; assumption || reflexivity.
Qed.

(** *** Missing keys *)

(** C4 (the code differs). A document without the [ast] key, and a name node
    whose payload has no [value] field, make the decoder raise [KeyError]:
    the handlers of [bxprogram_of_json] and [parse_name] only translate
    [IndexError] into [InvalidBXJSon]. *)
Theorem missing_key_raises_KeyError :
  bxprogram_of_json (JObject []) = Raise (KeyError (JString "ast"))
  ∧ parse_name (JList [JString "<name>"; JObject []])
    = Raise (KeyError (JString "value")).
Proof. split; reflexivity. Qed.

(** The same for every document object and every name payload lacking the
    key. *)
Lemma bxprogram_of_json_no_ast (fs : list (string * json)) :
  assoc "ast" fs = None →
  bxprogram_of_json (JObject fs) = Raise (KeyError (JString "ast")).
Proof. intros H. unfold bxprogram_of_json. simpl. by rewrite H. Qed.

Lemma parse_name_no_value (tag : json) (fs : list (string * json)) :
  assoc "value" fs = None →
  parse_name (JList [tag; JObject fs]) = Raise (KeyError (JString "value")).
Proof. intros H. unfold parse_name. simpl. by rewrite H. Qed.

(** What the handler does translate: a node that is too short. *)
Lemma parse_name_short_node (tag : json) :
  parse_name (JList [tag]) = Raise InvalidBXJSon.
Proof. reflexivity. Qed.

(** *** The [eval] statement *)

Lemma is_str_true (v : json) (s : string) :
  is_str v s = true ↔ v = JString s.
Proof.
  destruct v; simpl; try (split; [discriminate|by intros [=]]).
  rewrite String.eqb_eq. split; [by intros ->|by intros [=]].
Qed.

Lemma getitem_str_not_IndexError (v : json) (k : string) :
  getitem_str v k ≠ Raise IndexError.
Proof. destruct v; simpl; try discriminate. by destruct (assoc k fields). Qed.

Lemma parse_name_not_IndexError (name : json) :
  parse_name name ≠ Raise IndexError.
Proof.
  unfold parse_name, except_IndexError.
  destruct (_ ≫= _) as [v|[]]; discriminate.
Qed.

(** The schema of [eval] passes exactly when the payload is a dict whose
    [expression] entry is a two-element list headed by a tag of class
    [expression]; it fails with [InvalidBXJSon] otherwise. *)
Lemma eval_schema (data : json) :
  match check_shallow_schema data STATEMENT_EVAL_SCHEMA with
  | Ok _ =>
      ∃ tag payload kind,
        getitem_str data "expression" = Ok (JList [JString tag; payload])
        ∧ parse_tag tag = Ok ("expression", kind)
  | Raise e =>
      e = InvalidBXJSon
      ∧ ∀ payload, getitem_str data "expression"
                   ≠ Ok (JList [JString "<expression:call>"; payload])
  end.
Proof.
  destruct data; simpl; try (split; [done|discriminate]).
  unfold check_field. simpl.
  destruct (assoc "expression" fields) as [v|]; [|split; [done|discriminate]].
  destruct v as [| | | | |[|[] [|payload [|]]]|];
    try (split; [done|discriminate]).
  destruct (parse_tag s) as [[clazz kind]|e] eqn:Etag; simpl.
  - destruct (String.eqb clazz "expression") eqn:Ec; simpl.
    + apply String.eqb_eq in Ec as ->. by exists s, payload, kind.
    + split; [done|]. intros p [= -> ->]. by vm_compute in Etag; simplify_eq.
  - split; [by eapply parse_tag_raises|].
    intros p [= -> ->]. by vm_compute in Etag.
Qed.

(** The builder of [eval], once the schema has passed. *)
Lemma statement_eval_of_json_call (data payload : json) (tag : string) :
  getitem_str data "expression" = Ok (JList [JString tag; payload]) →
  statement_eval_of_json data =
    if negb (String.eqb tag "<expression:call>") then Raise InvalidBXJSon
    else
      name ← (getitem_str payload "target" ≫= parse_name);
      if negb (is_str name "print") then Raise InvalidBXJSon
      else
        PrintStatement <$>
          (arguments ← getitem_str payload "arguments";
           first ← getitem_int arguments 0;
           star2 expression_of_json first).
Proof.
  intros Hexpr. unfold statement_eval_of_json. rewrite Hexpr. simpl.
  destruct (negb (String.eqb tag _)); [done|].
  pose proof (getitem_str_not_IndexError payload "target") as Htarget.
  destruct (getitem_str payload "target") as [target|e]; simpl;
    [|by destruct e].
  pose proof (parse_name_not_IndexError target) as Hname.
  destruct (parse_name target) as [name|e]; simpl; [|by destruct e].
  destruct (negb (is_str name "print")); [done|]. simpl.
  destruct (getitem_str payload "arguments") as [arguments|e]; [|done].
  simpl. destruct (getitem_int arguments 0) as [first|e]; [|done]. simpl.
  by destruct (star2 expression_of_json first).
Qed.

Lemma statement_of_json_eval (data : json) :
  statement_of_json (JString "<statement:eval>") data =
    (_ ← check_shallow_schema data STATEMENT_EVAL_SCHEMA;
     statement_eval_of_json data).
Proof. reflexivity. Qed.

(** Only a non-empty list has a first element that [star2] can unpack. *)
Lemma first_argument_of_list {A} (f : json → json → result A)
  (arguments first : json) (a : A) :
  getitem_int arguments 0 = Ok first → star2 f first = Ok a →
  ∃ rest, arguments = JList (first :: rest).
Proof.
  destruct arguments as [| | | |s|xs|]; simpl; try discriminate.
  - destruct s; simpl; [discriminate|]. by intros [= <-].
  - destruct xs as [|x rest]; simpl; [discriminate|].
    intros [= <-] _. by exists rest.
Qed.

(** C5, counterexample. A call of [print] with two arguments decodes: the
    first argument is lowered, the second is dropped. *)
Lemma eval_accepts_extra_arguments :
  statement_of_json (JString "<statement:eval>")
    (Scenarios.eval_call "print"
       [Scenarios.int_node 1; Scenarios.int_node 2])
  = Ok (PrintStatement (IntExpression (JInt 1))).
Proof. reflexivity. Qed.

(** C5, as amended. A statement node of kind [eval] decodes exactly when its
    [expression] entry is a node tagged [<expression:call>] whose target
    name is [print] and whose [arguments] list has a first element that
    decodes as an expression; the result is the [PrintStatement] of that
    first argument, and further arguments are ignored.  A node with another
    tag, and a call whose target has another name, are rejected with
    [InvalidBXJSon]. *)
Theorem eval_decodes_first_argument (data : json) :
  (∀ stmt,
     statement_of_json (JString "<statement:eval>") data = Ok stmt ↔
     ∃ payload target first rest value,
       getitem_str data "expression"
         = Ok (JList [JString "<expression:call>"; payload])
       ∧ getitem_str payload "target" = Ok target
       ∧ parse_name target = Ok (JString "print")
       ∧ getitem_str payload "arguments" = Ok (JList (first :: rest))
       ∧ star2 expression_of_json first = Ok value
       ∧ stmt = PrintStatement value)
  ∧ ((∀ payload,
        getitem_str data "expression"
          ≠ Ok (JList [JString "<expression:call>"; payload])) →
     statement_of_json (JString "<statement:eval>") data
       = Raise InvalidBXJSon)
  ∧ (∀ payload target name,
       getitem_str data "expression"
         = Ok (JList [JString "<expression:call>"; payload]) →
       getitem_str payload "target" = Ok target →
       parse_name target = Ok name →
       name ≠ JString "print" →
       statement_of_json (JString "<statement:eval>") data
         = Raise InvalidBXJSon).
Proof.
  rewrite statement_of_json_eval.
  pose proof (eval_schema data) as Hschema.
  destruct (check_shallow_schema data STATEMENT_EVAL_SCHEMA) as [[]|e];
    simpl.
  - destruct Hschema as (tag & payload & kind & Hexpr & Htag).
    rewrite (statement_eval_of_json_call data payload tag Hexpr).
    destruct (String.eqb tag "<expression:call>") eqn:Ecall; simpl.
    + apply String.eqb_eq in Ecall as ->.
      repeat split.
      * destruct (getitem_str payload "target") as [target|e] eqn:Etarget;
          simpl; [|discriminate].
        destruct (parse_name target) as [name|e] eqn:Ename; simpl;
          [|discriminate].
        destruct (is_str name "print") eqn:Eprint; simpl; [|discriminate].
        apply is_str_true in Eprint as ->.
        destruct (getitem_str payload "arguments") as [arguments|e]
          eqn:Eargs; simpl; [|discriminate].
        destruct (getitem_int arguments 0) as [first|e] eqn:Efirst; simpl;
          [|discriminate].
        destruct (star2 expression_of_json first) as [value|e] eqn:Evalue;
          simpl; [|discriminate].
        intros [= <-].
        destruct (first_argument_of_list _ _ _ _ Efirst Evalue)
          as [rest ->].
        by exists payload, target, first, rest, value.
      * intros (p & target & first & rest & value
                & Hp & Htarget & Hname & Hargs & Hvalue & ->).
        rewrite Hexpr in Hp. injection Hp as <-.
        rewrite Htarget. simpl. rewrite Hname. simpl.
        rewrite Hargs. simpl. by rewrite Hvalue.
      * intros Hno. by destruct (Hno payload).
      * intros p target name Hp Htarget Hname Hne.
        rewrite Hexpr in Hp. injection Hp as <-.
        rewrite Htarget. simpl. rewrite Hname. simpl.
        destruct (is_str name "print") eqn:Eprint; [|done].
        by apply is_str_true in Eprint.
    + apply String.eqb_neq in Ecall.
      repeat split; try done;
        try (intros (p & ? & ? & ? & ? & Hp & _)); try (intros p ? ? Hp);
        rewrite Hexpr in Hp; by simplify_eq.
  - destruct Hschema as [-> Hno].
    repeat split; try done;
      try (intros (p & ? & ? & ? & ? & Hp & _)); try (intros p ? ? Hp);
      by destruct (Hno p).
Qed.

(** The theorem at a call of [exit] and at a node that is no call. *)
Lemma eval_decodes_first_argument_witness :
  statement_of_json (JString "<statement:eval>")
    (Scenarios.eval_call "exit" [Scenarios.int_node 1])
  = Raise InvalidBXJSon
  ∧ statement_of_json (JString "<statement:eval>")
      (JObject [("expression", Scenarios.int_node 1)])
    = Raise InvalidBXJSon.
Proof.
  split.
  - refine (proj2 (proj2 (eval_decodes_first_argument
              (Scenarios.eval_call "exit" [Scenarios.int_node 1])))
              _ (Scenarios.name_node "exit") (JString "exit") _ _ _ _);
      [reflexivity|reflexivity|reflexivity|discriminate].
  - refine (proj1 (proj2 (eval_decodes_first_argument
              (JObject [("expression", Scenarios.int_node 1)]))) _).
    intros payload. discriminate.
Defined.

End BxcFacts.

(** ** Maximal munch, Labs2/bxc-skeleton.py *)

Module SkeletonFacts.
Import Py.
Import Skeleton.
Import Scenarios.

(** *** Declarations *)

Lemma for_statement_VarDecl (name : Name) (init : option Expression)
  (self : MM) :
  for_statement (VarDeclStatement name init) self
  = Ok (push "const" ["0"; "%" +:+ pretty (_counter self + 1)] None
          (vars_set (value name) ("%" +:+ pretty (_counter self + 1))
             (fresh_temporary self).2)).
Proof.
  simpl. unfold vars_get, vars_set. simpl. by rewrite lookup_insert_eq.
Qed.

(** C3 (the code differs). A [VarDeclStatement] mints one temporary, binds
    the declared name to it and pushes one [const] instruction, and never
    looks at the initializer; but the instruction carries the temporary as a
    second argument next to ["0"], and its [result] is [None]. *)
Theorem vardecl_pushes_const_without_result
  (name : Name) (init : option Expression) (self : MM) :
  let temp := "%" +:+ pretty (_counter self + 1) in
  for_statement (VarDeclStatement name init) self
  = Ok {| _counter := _counter self + 1;
          _tac := _tac self
                  ++ [{| opcode := "const"; arguments := ["0"; temp];
                         result := None |}];
          _vars := <[value name := temp]> (_vars self) |}.
Proof. apply for_statement_VarDecl. Qed.

(** *** The operator table *)

(** C8 (the code differs). Of the twelve operator names of [UNIOP] and
    [BINOP], the two shifts are not keys of [OPCODES], which spells them
    [logical-shift-left] and [logical-shift-right]; lowering an application
    of either raises [KeyError] once its arguments are lowered. *)
Theorem shift_operators_missing_from_OPCODES :
  filter (λ op, OPCODES !! op = None) ((UNIOP ++ BINOP).*2)
  = ["logical-right-shift"; "logical-left-shift"]
  ∧ for_expression
      (OpAppExpression "logical-left-shift"
         [IntExpression 1; IntExpression 2]) MM_init
    = Raise (KeyError (JString "logical-left-shift"))
  ∧ for_expression
      (OpAppExpression "logical-right-shift"
         [IntExpression 1; IntExpression 2]) MM_init
    = Raise (KeyError (JString "logical-right-shift")).
Proof. repeat split; vm_compute; reflexivity. Qed.

(** The ten other operators are in the table. *)
Lemma other_operators_in_OPCODES :
  (λ op, OPCODES !! op) <$>
    filter (λ op, is_Some (OPCODES !! op)) ((UNIOP ++ BINOP).*2)
  = Some <$> ["neg"; "not"; "add"; "sub"; "mul"; "div"; "mod";
              "and"; "or"; "xor"].
Proof. vm_compute. reflexivity. Qed.

(** *** Scenario A *)

(** C2, counterexample. Scenario A lowers to six instructions, so to no
    renaming of the five-instruction sequence. *)
Lemma scenario_A_has_six_instructions :
  ∃ tac, mm scenario_A = Ok tac
         ∧ length tac = 6%nat
         ∧ ∀ f, tac ≠ rename_temporaries f <$> scenario_A_in_spec.
Proof.
  eexists. split; [vm_compute; reflexivity|]. split; [reflexivity|].
  intros f H. apply (f_equal length) in H. discriminate.
Qed.

(** C2, as amended. Scenario A lowers to six instructions: a [const] for
    the declaration, whose operands are the literal [0] and the temporary
    [%0] bound to [x]; then [const 1 -> %2], [const 2 -> %3],
    [add(%2, %3) -> %1], [copy %1 -> %0] and [print %0].  The destination
    of the copy is the temporary of the declaration, which [print] reads. *)
Theorem scenario_A_lowering :
  ∃ decl,
    mm scenario_A
    = Ok [decl;
          {| opcode := "const"; arguments := ["1"]; result := Some "%2" |};
          {| opcode := "const"; arguments := ["2"]; result := Some "%3" |};
          {| opcode := "add"; arguments := ["%2"; "%3"];
             result := Some "%1" |};
          {| opcode := "copy"; arguments := ["%1"]; result := Some "%0" |};
          {| opcode := "print"; arguments := ["%0"]; result := None |}]
    ∧ opcode decl = "const"
    ∧ Tac2arm.operands decl = ["0"; "%0"]
    ∧ declared_temporaries scenario_A = ["%0"].
Proof.
  eexists. split; [vm_compute; reflexivity|].
  repeat split; vm_compute; reflexivity.
Qed.

(** *** Single assignment and def-before-use *)

(** C1, counterexample. Two assignments to one variable write its temporary
    twice. *)
Lemma assigned_twice_not_single_assignment :
  ∃ tac, mm assigned_twice = Ok tac
         ∧ results tac = ["%1"; "%0"; "%2"; "%0"]
         ∧ ¬ single_assignment tac.
Proof.
  eexists. split; [vm_compute; reflexivity|]. split; [reflexivity|].
  unfold single_assignment. simpl. rewrite !NoDup_cons.
  intros (_ & H & _). apply H. set_solver.
Qed.

(** Decimal numerals do not start with [%]. *)
Lemma pretty_N_go_head (x : N) (s : string) :
  (0 < x)%N →
  ∃ d s', pretty_N_go x s = String (pretty_N_char d) s'.
Proof.
  revert s. induction (N.lt_wf_0 x) as [x _ IH]. intros s Hx.
  rewrite pretty_N_go_step by done.
  destruct (decide (x `div` 10 = 0)%N) as [->|Hne].
  - rewrite pretty_N_go_0. eauto.
  - apply IH; [apply N.div_lt; lia|by apply N.neq_0_lt_0].
Qed.

Lemma pretty_N_char_not_percent (d : N) (s : string) :
  is_temporary (String (pretty_N_char d) s) = false.
Proof. unfold pretty_N_char. by repeat case_match. Qed.

Lemma pretty_positive_not_temporary (p : positive) :
  is_temporary (pretty p) = false.
Proof.
  unfold pretty, pretty_positive, pretty, pretty_N.
  case_decide; [done|].
  destruct (pretty_N_go_head (N.pos p) "") as (d & s' & ->); [lia|].
  apply pretty_N_char_not_percent.
Qed.

Lemma pretty_not_temporary (z : Z) : is_temporary (pretty z) = false.
Proof.
  destruct z as [|p|p]; [done| |done].
  apply pretty_positive_not_temporary.
Qed.

Lemma temp_name_inj (j k : Z) : temp_name j = temp_name k → j = k.
Proof. unfold temp_name. intros [= H]. by apply (inj pretty). Qed.

Lemma fresh_temporary_eq (self : MM) :
  fresh_temporary self
  = (temp_name (_counter self + 1),
     {| _counter := _counter self + 1; _tac := _tac self;
        _vars := _vars self |}).
Proof. reflexivity. Qed.

Lemma for_expression_OpApp (operator : string) (es : list Expression)
  (self : MM) :
  for_expression (OpAppExpression operator es) self
  = let '(target, self) := fresh_temporary self in
    '(arguments, self) ← for_arguments es self;
    mnemonic ← opcodes_get operator;
    Ok (target, push mnemonic arguments (Some target) self).
Proof. reflexivity. Qed.

Lemma results_app (tac1 tac2 : list TAC) :
  results (tac1 ++ tac2) = results tac1 ++ results tac2.
Proof. apply omap_app. Qed.

Lemma results_snoc (tac : list TAC) (instr : TAC) :
  results (tac ++ [instr]) = results tac ++ option_list (result instr).
Proof. rewrite results_app. unfold results. simpl. by destruct (result instr). Qed.

Lemma defined_in_order_app (known : list string) (tac1 tac2 : list TAC) :
  defined_in_order known (tac1 ++ tac2)
  ↔ defined_in_order known tac1
    ∧ defined_in_order (known ++ results tac1) tac2.
Proof.
  revert known. induction tac1 as [|instr tac1 IH]; intros known; simpl.
  - rewrite app_nil_r. tauto.
  - rewrite IH. unfold results. simpl.
    destruct (result instr); simpl; rewrite <-?app_assoc, ?app_nil_r;
      simpl; tauto.
Qed.

Lemma defined_in_order_mono (known known' : list string) (tac : list TAC) :
  known ⊆ known' →
  defined_in_order known tac → defined_in_order known' tac.
Proof.
  revert known known'. induction tac as [|instr tac IH];
    intros known known' Hsub; simpl; [done|].
  intros [Hargs Htac]. split; [by auto|].
  eapply IH; [|done].
  intros t [Ht|Ht]%elem_of_app; apply elem_of_app; auto.
Qed.

Lemma defined_in_order_lookup (known : list string) (tac : list TAC)
  (i : nat) (instr : TAC) (t : string) :
  defined_in_order known tac →
  tac !! i = Some instr → t ∈ arguments instr → is_temporary t = true →
  t ∈ known
  ∨ ∃ (j : nat) (writer : TAC),
      (j < i)%nat ∧ tac !! j = Some writer ∧ result writer = Some t.
Proof.
  revert known i. induction tac as [|first tac IH]; intros known i;
    [done|].
  simpl. intros [Hargs Htac] Hi Ht Htemp.
  destruct i as [|i]; simpl in Hi.
  - left. injection Hi as ->. by apply Hargs.
  - destruct (IH _ _ Htac Hi Ht Htemp) as [Hin|(j & w & Hj & Hw & Hr)].
    + apply elem_of_app in Hin as [Hin|Hin]; [by left|].
      right. exists O, first. split; [lia|]. split; [done|].
      destruct (result first); simpl in Hin.
      * by apply list_elem_of_singleton in Hin as ->.
      * by apply elem_of_nil in Hin.
    + right. exists (S j), w. split; [lia|]. by split.
Qed.

Lemma defined_in_order_sound (declared : list string) (tac : list TAC) :
  defined_in_order declared tac →
  def_before_use (λ t, t ∉ declared) tac.
Proof.
  intros Htac i instr t Hi Ht Htemp Hout.
  by destruct (defined_in_order_lookup _ _ _ _ _ Htac Hi Ht Htemp).
Qed.

Lemma minted_results (lo hi : Z) (new : list TAC) (t : string) :
  Forall (minted_in lo hi) new → t ∈ results new →
  ∃ k, t = temp_name k ∧ lo < k ≤ hi.
Proof.
  intros Hnew Ht. apply list_elem_of_omap in Ht as (instr & Hin & Hres).
  rewrite Forall_forall in Hnew. destruct (Hnew _ Hin) as (k & Hk & ?).
  exists k. split; [congruence|done].
Qed.

Lemma minted_in_mono (lo lo' hi hi' : Z) (new : list TAC) :
  lo' ≤ lo → hi ≤ hi' →
  Forall (minted_in lo hi) new → Forall (minted_in lo' hi') new.
Proof.
  intros ?? Hnew. eapply Forall_impl; [done|].
  intros instr (k & ? & ?). exists k. split; [done|lia].
Qed.

Lemma lowered_refl (self : MM) : lowered self self [].
Proof.
  split; try done.
  - by rewrite app_nil_r.
  - constructor.
Qed.

Lemma lowered_fresh (self : MM) :
  lowered self (fresh_temporary self).2 [].
Proof.
  split; simpl; try done.
  - by rewrite app_nil_r.
  - lia.
  - constructor.
Qed.

Lemma lowered_trans (self0 self1 self2 : MM) (new1 new2 : list TAC) :
  lowered self0 self1 new1 → lowered self1 self2 new2 →
  lowered self0 self2 (new1 ++ new2).
Proof.
  intros [Ht1 Hv1 Hc1 Hm1 Hn1 Ho1] [Ht2 Hv2 Hc2 Hm2 Hn2 Ho2]. split.
  - by rewrite Ht2, Ht1, app_assoc.
  - congruence.
  - lia.
  - apply Forall_app. split.
    + eapply minted_in_mono; [| |done]; lia.
    + eapply minted_in_mono; [| |done]; lia.
  - rewrite results_app. apply NoDup_app. split; [done|]. split; [|done].
    intros t Hin1 Hin2.
    destruct (minted_results _ _ _ _ Hm1 Hin1) as (j & -> & ?).
    destruct (minted_results _ _ _ _ Hm2 Hin2) as (k & Hjk & ?).
    apply temp_name_inj in Hjk. lia.
  - intros known Hknown. apply defined_in_order_app. split; [by auto|].
    apply Ho2. intros x t Hx. rewrite Hv1 in Hx.
    apply elem_of_app. left. by eapply Hknown.
Qed.

(** Pushing an instruction whose result was minted inside the block but is
    not yet written, and whose arguments are all defined. *)
Lemma lowered_push (self self' : MM) (new : list TAC) (k : Z)
  (mnemonic : string) (args : list string) :
  lowered self self' new →
  _counter self < k ≤ _counter self' →
  temp_name k ∉ results new →
  (∀ known, covers_vars self known →
            Forall (λ a, is_temporary a = true → a ∈ known ++ results new)
                   args) →
  lowered self (push mnemonic args (Some (temp_name k)) self')
    (new ++ [Build_TAC mnemonic args (Some (temp_name k))]).
Proof.
  intros [Ht Hv Hc Hm Hn Ho] Hk Hfresh Hargs. split; simpl.
  - by rewrite Ht, app_assoc.
  - done.
  - done.
  - apply Forall_app. split; [done|].
    apply Forall_singleton. by exists k.
  - rewrite results_snoc. simpl. apply NoDup_app. split; [done|].
    split; [|apply NoDup_singleton].
    by intros t Ht1 ->%list_elem_of_singleton.
  - intros known Hknown. apply defined_in_order_app. split; [by auto|].
    simpl. split; [|done]. intros a Ha Htemp.
    specialize (Hargs known Hknown). rewrite Forall_forall in Hargs.
    by apply Hargs.
Qed.

Lemma Expression_nested_ind (P : Expression → Prop) :
  (∀ name, P (VarExpression name)) →
  (∀ v, P (IntExpression v)) →
  (∀ operator es, Forall P es → P (OpAppExpression operator es)) →
  ∀ e, P e.
Proof.
  intros Hvar Hint Hop. fix IH 1. intros [name|v|operator es].
  - apply Hvar.
  - apply Hint.
  - apply Hop. revert es. fix IHes 1. intros [|e es].
    + constructor.
    + constructor; [apply IH|apply IHes].
Qed.

Lemma for_arguments_lowered (es : list Expression) :
  Forall expression_lowered es →
  ∀ self ts self',
    for_arguments es self = Ok (ts, self') →
    ∃ new, lowered self self' new ∧ Forall (defined_after self new) ts.
Proof.
  induction 1 as [|e es He _ IH]; intros self ts self'; simpl.
  - intros [= <- <-]. exists []. split; [apply lowered_refl|constructor].
  - destruct (for_expression e self) as [[t self1]|] eqn:Ee; [|done].
    simpl.
    destruct (for_arguments es self1) as [[ts' self2]|] eqn:Ees; [|done].
    simpl. intros [= <- <-].
    destruct (He _ _ _ Ee) as (new1 & Hl1 & Ht).
    destruct (IH _ _ _ Ees) as (new2 & Hl2 & Hts).
    exists (new1 ++ new2). split; [by eapply lowered_trans|].
    constructor.
    + intros known Hknown. rewrite results_app, app_assoc.
      apply elem_of_app. left. by apply Ht.
    + eapply Forall_impl; [done|]. intros t' Ht' known Hknown.
      rewrite results_app, app_assoc. apply Ht'.
      intros x u Hx. rewrite (lowered_vars _ _ _ Hl1) in Hx.
      apply elem_of_app. left. by eapply Hknown.
Qed.

Lemma for_expression_lowered (e : Expression) : expression_lowered e.
Proof.
  induction e as [name|v|operator es IH] using Expression_nested_ind;
    intros self t self'.
  - simpl. unfold vars_get.
    destruct (_vars self !! value name) as [temp|] eqn:Ename; [|done].
    simpl. intros [= <- <-]. exists []. split; [apply lowered_refl|].
    intros known Hknown. apply elem_of_app. left. by eapply Hknown.
  - simpl. intros [= <- <-].
    eexists. split.
    + apply (lowered_push self _ [] (_counter self + 1));
        [apply lowered_fresh|simpl; lia|apply not_elem_of_nil|].
      intros known _. apply Forall_singleton. intros Htemp.
      by rewrite pretty_not_temporary in Htemp.
    + intros known _. rewrite results_snoc. simpl. fold (temp_name (_counter self + 1)).
      set_solver.
  - rewrite for_expression_OpApp, fresh_temporary_eq.
    set (self1 := {| _counter := _counter self + 1; _tac := _tac self;
                     _vars := _vars self |}).
    destruct (for_arguments es self1) as [[ts self2]|] eqn:Ees; [|done].
    simpl. destruct (opcodes_get operator) as [mnemonic|]; [|done].
    simpl. intros [= <- <-].
    destruct (for_arguments_lowered es IH _ _ _ Ees) as (new & Hl & Hts).
    pose proof (lowered_trans _ _ _ _ _ (lowered_fresh self) Hl) as Hl'.
    simpl in Hl'.
    exists (new ++ [Build_TAC mnemonic ts
                      (Some (temp_name (_counter self + 1)))]).
    split.
    + apply lowered_push; [done| | |].
      * pose proof (lowered_counter _ _ _ Hl) as Hc. simpl in Hc. lia.
      * intros Hin.
        destruct (minted_results _ _ _ _ (lowered_minted _ _ _ Hl) Hin)
          as (k & Hk & ?).
        apply temp_name_inj in Hk. simpl in *. lia.
      * intros known Hknown. eapply Forall_impl; [done|].
        intros a Ha _. by apply Ha.
    + intros known _. rewrite results_snoc. simpl. set_solver.
Qed.

Lemma filter_outside_sublist (declared declared' l : list string) :
  declared ⊆ declared' →
  filter (λ t, t ∉ declared') l `sublist_of` filter (λ t, t ∉ declared) l.
Proof.
  intros Hsub. induction l as [|t l IH]; [done|].
  rewrite !filter_cons. repeat case_decide.
  - by apply sublist_skip.
  - exfalso. auto.
  - by apply sublist_cons.
  - done.
Qed.

(** The invariant is kept by a lowered block, ... *)
Lemma invariant_lowered (declared : list string) (self self' : MM)
  (new : list TAC) :
  invariant declared self → lowered self self' new →
  invariant declared self'.
Proof.
  intros [Hv Hr Hd Hs Ho] [Ht Hvars Hc Hm Hn Hord]. split.
  - intros x t Hx. rewrite Hvars in Hx. by eapply Hv.
  - rewrite Ht, results_app. apply Forall_app. split.
    + eapply Forall_impl; [done|]. intros t (k & -> & ?).
      exists k. split; [done|lia].
    + apply Forall_forall. intros t Hin.
      destruct (minted_results _ _ _ _ Hm Hin) as (k & -> & ?).
      exists k. split; [done|lia].
  - eapply Forall_impl; [done|]. intros t (k & -> & ?).
    exists k. split; [done|lia].
  - unfold single_assignment_except in *.
    rewrite Ht, results_app, filter_app. apply NoDup_app.
    split; [done|]. split; [|by apply NoDup_filter].
    intros t [_ Hin1]%list_elem_of_filter [_ Hin2]%list_elem_of_filter.
    rewrite Forall_forall in Hr. destruct (Hr _ Hin1) as (j & -> & ?).
    destruct (minted_results _ _ _ _ Hm Hin2) as (k & Hjk & ?).
    apply temp_name_inj in Hjk. lia.
  - rewrite Ht. apply defined_in_order_app. split; [done|].
    apply Hord. intros x t Hx. apply elem_of_app. left. by eapply Hv.
Qed.

(** ... by pushing an instruction without result, or one that writes a
    declared temporary, ... *)
Lemma invariant_push (declared : list string) (self : MM)
  (mnemonic : string) (args : list string) (dest : option string) :
  invariant declared self →
  (∀ t, dest = Some t → t ∈ declared) →
  (∀ a, a ∈ args → is_temporary a = true →
        a ∈ declared ++ results (_tac self)) →
  invariant declared (push mnemonic args dest self).
Proof.
  intros [Hv Hr Hd Hs Ho] Hdest Hargs. split; simpl; try done.
  - rewrite results_snoc. simpl. apply Forall_app. split; [done|].
    destruct dest as [t|]; [|constructor]. apply Forall_singleton.
    rewrite Forall_forall in Hd. by apply Hd, Hdest.
  - unfold single_assignment_except in *.
    rewrite results_snoc, filter_app. simpl.
    destruct dest as [t|]; simpl; [|by rewrite app_nil_r].
    rewrite filter_cons_False, filter_nil, app_nil_r; [done|].
    intros Hout. by apply Hout, Hdest.
  - apply defined_in_order_app. split; [done|]. simpl. by split.
Qed.

(** ... and by declaring a variable. *)
Lemma invariant_declare (declared : list string) (self : MM)
  (name : string) :
  invariant declared self →
  let temp := temp_name (_counter self + 1) in
  invariant (declared ++ [temp])
    (push "const" ["0"; temp] None
       (vars_set name temp (fresh_temporary self).2)).
Proof.
  intros [Hv Hr Hd Hs Ho] temp. split; simpl.
  - intros x t. simpl. rewrite lookup_insert. case_decide.
    + intros [= <-]. apply elem_of_app. right. by apply list_elem_of_singleton.
    + intros Hx. apply elem_of_app. left. by eapply Hv.
  - rewrite results_snoc, app_nil_r. simpl.
    eapply Forall_impl; [done|]. intros t (k & -> & ?).
    exists k. split; [done|lia].
  - apply Forall_app. split.
    + eapply Forall_impl; [done|]. intros t (k & -> & ?).
      exists k. split; [done|lia].
    + apply Forall_singleton. exists (_counter self + 1). split; [done|lia].
  - unfold single_assignment_except in *.
    rewrite results_snoc, app_nil_r. simpl.
    apply (sublist_NoDup _ _ Hs).
    apply filter_outside_sublist. intros t Ht. apply elem_of_app. by left.
  - apply defined_in_order_app. split.
    + eapply defined_in_order_mono; [|done].
      intros t Ht. apply elem_of_app. by left.
    + simpl. split; [|done]. intros t Ht Htemp.
      apply elem_of_cons in Ht as [->|Ht]; [done|].
      apply list_elem_of_singleton in Ht as ->.
      apply elem_of_app. left. apply elem_of_app. right.
      by apply list_elem_of_singleton.
Qed.

(** The temporary of a variable that is read before any assignment is the
    result of no instruction: its declaration carries it as an argument. *)
Lemma declared_then_read_unwritten :
  ∃ tac, mm declared_then_read = Ok tac
         ∧ results tac = []
         ∧ ¬ def_before_use (λ _, True) tac.
Proof.
  eexists. split; [vm_compute; reflexivity|]. split; [reflexivity|].
  intros Huse.
  destruct (Huse 1%nat {| opcode := "print"; arguments := ["%0"];
                          result := None |} "%0")
    as (j & writer & Hj & Hwriter & Hresult);
    [done|by apply list_elem_of_singleton|done|done|].
  destruct j as [|j]; [|lia]. simpl in Hwriter. by simplify_eq.
Qed.

(** An application whose operator is a key of [OPCODES] mints its target
    first, lowers its arguments from left to right, and then pushes one
    instruction: the mnemonic of the operator, the targets of the arguments
    in order, and the target as result. *)
Lemma for_expression_OpApp_pushes (operator mnemonic : string)
  (es : list Expression) (ts : list string) (self self' : MM) :
  OPCODES !! operator = Some mnemonic →
  for_arguments es (fresh_temporary self).2 = Ok (ts, self') →
  for_expression (OpAppExpression operator es) self
  = Ok (temp_name (_counter self + 1),
        push mnemonic ts (Some (temp_name (_counter self + 1))) self').
Proof.
  intros Hop Hes. rewrite for_expression_OpApp, fresh_temporary_eq.
  rewrite fresh_temporary_eq in Hes. simpl in Hes. rewrite Hes. simpl.
  unfold opcodes_get. by rewrite Hop.
Qed.

Lemma for_expression_OpApp_pushes_witness :
  for_expression
    (OpAppExpression "subtraction" [IntExpression 5; IntExpression 3])
    MM_init
  = Ok ("%0",
        {| _counter := 2;
           _tac :=
             [{| opcode := "const"; arguments := ["5"]; result := Some "%1" |};
              {| opcode := "const"; arguments := ["3"]; result := Some "%2" |};
              {| opcode := "sub"; arguments := ["%1"; "%2"];
                 result := Some "%0" |}];
           _vars := ∅ |}).
Proof.
  apply (for_expression_OpApp_pushes "subtraction" "sub"
           [IntExpression 5; IntExpression 3] ["%1"; "%2"] MM_init
           {| _counter := 2;
              _tac :=
                [{| opcode := "const"; arguments := ["5"];
                    result := Some "%1" |};
                 {| opcode := "const"; arguments := ["3"];
                    result := Some "%2" |}];
              _vars := ∅ |});
    vm_compute; reflexivity.
Defined.

Lemma for_statement_invariant (declared : list string) (stmt : Statement)
  (self self' : MM) :
  invariant declared self →
  for_statement stmt self = Ok self' →
  invariant (declared ++ declared_by stmt self') self'.
Proof.
  intros Hinv. destruct stmt as [name init|lhs rhs|v].
  - rewrite for_statement_VarDecl. intros [= <-]. simpl.
    rewrite lookup_insert_eq. simpl.
    by apply (invariant_declare declared self (value name)).
  - simpl. rewrite app_nil_r.
    destruct (for_expression rhs self) as [[temp self1]|] eqn:Erhs; [|done].
    simpl. unfold vars_get.
    destruct (_vars self1 !! value lhs) as [dest|] eqn:Elhs; [|done].
    simpl. intros [= <-].
    destruct (for_expression_lowered rhs _ _ _ Erhs) as (new & Hl & Ht).
    pose proof (invariant_lowered _ _ _ _ Hinv Hl) as Hinv1.
    apply invariant_push; [done| |].
    + intros t [= <-]. by eapply (inv_vars _ _ Hinv1).
    + intros a ->%list_elem_of_singleton _.
      rewrite (lowered_tac _ _ _ Hl), results_app, app_assoc.
      apply Ht. intros x t Hx. apply elem_of_app. left.
      by eapply (inv_vars _ _ Hinv).
  - simpl. rewrite app_nil_r.
    destruct (for_expression v self) as [[temp self1]|] eqn:Ev; [|done].
    simpl. intros [= <-].
    destruct (for_expression_lowered v _ _ _ Ev) as (new & Hl & Ht).
    pose proof (invariant_lowered _ _ _ _ Hinv Hl) as Hinv1.
    apply invariant_push; [done|done|].
    intros a ->%list_elem_of_singleton _.
    rewrite (lowered_tac _ _ _ Hl), results_app, app_assoc.
    apply Ht. intros x t Hx. apply elem_of_app. left.
    by eapply (inv_vars _ _ Hinv).
Qed.

Lemma declared_from_cons (self self' : MM) (stmt : Statement)
  (prgm : Program) :
  for_statement stmt self = Ok self' →
  declared_from self (stmt :: prgm)
  = declared_by stmt self' ++ declared_from self' prgm.
Proof. intros H. simpl. by rewrite H. Qed.

Lemma for_program_invariant (prgm : Program) (declared : list string)
  (self self' : MM) :
  invariant declared self →
  for_program prgm self = Ok self' →
  invariant (declared ++ declared_from self prgm) self'.
Proof.
  revert declared self. induction prgm as [|stmt prgm IH];
    intros declared self Hinv.
  - simpl. intros [= <-]. by rewrite app_nil_r.
  - simpl for_program.
    destruct (for_statement stmt self) as [self1|] eqn:Estmt; [|done].
    intros Hprgm.
    rewrite (declared_from_cons _ _ _ _ Estmt), app_assoc.
    apply IH; [by apply (for_statement_invariant _ _ self)|exact Hprgm].
Qed.

Lemma invariant_init : invariant [] MM_init.
Proof.
  split; simpl; try constructor.
  intros x t Hx. simpl in Hx. by rewrite lookup_empty in Hx.
Qed.

(** C1, as amended. In the sequence [MM.mm] returns, no temporary other
    than those bound to declared variables is the result of two
    instructions, and every argument temporary other than those bound to
    declared variables is the result of an earlier instruction. *)
Theorem lowering_single_assignment_outside_variables
  (prgm : Program) (tac : list TAC) :
  mm prgm = Ok tac →
  single_assignment_except (declared_temporaries prgm) tac
  ∧ def_before_use (λ t, t ∉ declared_temporaries prgm) tac.
Proof.
  unfold mm.
  destruct (for_program prgm MM_init) as [self|] eqn:Eprgm; [|done].
  simpl. intros [= <-].
  pose proof (for_program_invariant _ _ _ _ invariant_init Eprgm) as Hinv.
  simpl in Hinv. split.
  - apply (inv_single _ _ Hinv).
  - apply defined_in_order_sound, (inv_ordered _ _ Hinv).
Qed.

(** The theorem at [var x; x = 1; x = 2;]. *)
Lemma lowering_single_assignment_outside_variables_witness :
  let tac :=
    [{| opcode := "const"; arguments := ["0"; "%0"]; result := None |};
     {| opcode := "const"; arguments := ["1"]; result := Some "%1" |};
     {| opcode := "copy"; arguments := ["%1"]; result := Some "%0" |};
     {| opcode := "const"; arguments := ["2"]; result := Some "%2" |};
     {| opcode := "copy"; arguments := ["%2"]; result := Some "%0" |}] in
  mm assigned_twice = Ok tac
  ∧ single_assignment_except (declared_temporaries assigned_twice) tac
  ∧ def_before_use (λ t, t ∉ declared_temporaries assigned_twice) tac.
Proof.
  intros tac. split; [vm_compute; reflexivity|].
  apply (lowering_single_assignment_outside_variables assigned_twice tac).
  vm_compute. reflexivity.
Defined.

End SkeletonFacts.

(** ** The emitter of Labs1/tac2arm.py *)

Module Tac2armFacts.
Import Py.
Import Skeleton.
Import Tac2arm.
Import Scenarios.

(** *** Dispatch *)

(** [emit_opcodes] lists the names of [emit_attributes]. *)
Lemma emit_attributes_names :
  emit_attributes.*1 = (λ op, "_emit_" +:+ op) <$> emit_opcodes.
Proof. reflexivity. Qed.

Lemma getattr_emit_unknown (op : string) :
  op ∉ emit_opcodes →
  getattr_emit ("_emit_" +:+ op) = Raise (AttributeError ("_emit_" +:+ op)).
Proof.
  intros Hop. unfold getattr_emit. simpl.
  change ("" +:+ op) with op.
  repeat (destruct (String.eqb op _) eqn:E;
          [apply String.eqb_eq in E as ->; exfalso; apply Hop;
           unfold emit_opcodes; set_solver|clear E]).
  reflexivity.
Qed.

(** C7, counterexample. The opcode [alu2] is none of the opcodes with a
    lowering rule, yet an instruction carrying it is dispatched to the
    shared routine [_emit_alu2], which emits four lines. *)
Lemma alu2_is_dispatched :
  ("alu2" ∉ opcodes_in_spec)
  ∧ (∃ self',
       dispatch alu2_instr CodeEmitter_init = (None, self')
       ∧ _asm self'
         = [_get_asm "ldr" ["X0"; "[SP, #0]"];
            _get_asm "ldr" ["X1"; "[SP, #8]"];
            _get_asm "add" ["X2"; "X0"; "X1"];
            _get_asm "str" ["X2"; "[SP, #16]"]]).
Proof.
  split.
  - unfold opcodes_in_spec. rewrite !elem_of_cons, elem_of_nil.
    intros H. repeat destruct H as [H|H]; discriminate || done.
  - eexists. split; [vm_compute; reflexivity|reflexivity].
Qed.

(** C7, as amended. An instruction whose opcode is not the suffix of one of
    the [_emit_] methods of the emitter (the thirteen lowering rules
    [const], [copy], [add], [sub], [mul], [div], [mod], [and], [or], [xor],
    [shl], [shr], [print], and the shared routine [alu2]) makes [__call__]
    raise [AttributeError] naming [_emit_<opcode>]; no routine runs and the
    emitter is left as it was. *)
Theorem unknown_opcode_raises_AttributeError
  (instr : TAC) (self : CodeEmitter) :
  opcode instr ∉ emit_opcodes →
  getattr_emit ("_emit_" +:+ opcode instr)
    = Raise (AttributeError ("_emit_" +:+ opcode instr))
  ∧ dispatch instr self
    = (Some (AttributeError ("_emit_" +:+ opcode instr)), self).
Proof.
  intros Hop. pose proof (getattr_emit_unknown _ Hop) as Hget.
  split; [done|]. unfold dispatch. by rewrite Hget.
Qed.

(** The theorem at the opcode [frobnicate]. *)
Lemma unknown_opcode_raises_AttributeError_witness :
  dispatch frobnicate_instr CodeEmitter_init
  = (Some (AttributeError "_emit_frobnicate"), CodeEmitter_init).
Proof.
  refine (proj2 (unknown_opcode_raises_AttributeError
                   frobnicate_instr CodeEmitter_init _)).
  unfold emit_opcodes. simpl. rewrite !elem_of_cons, elem_of_nil.
  intros H. repeat destruct H as [H|H]; discriminate || done.
Defined.

(** *** Slots *)

Lemma temp_temps (t d : string) (self self' : CodeEmitter) :
  _temp t self = (d, self') → _temps self' = touch (_temps self) t.
Proof.
  unfold _temp, touch. destruct (_temps self !! t); by intros [= _ <-].
Qed.

Ltac step_temp :=
  match goal with
  | |- context [_temp ?t ?s] =>
      let d := fresh "d" in
      let s1 := fresh "s" in
      let E := fresh "E" in
      destruct (_temp t s) as [d s1] eqn:E; apply temp_temps in E;
      simpl in E
  end.

Lemma emit_alu2_temps (mnemonic op1 op2 dst : string) (self : CodeEmitter) :
  _temps (_emit_alu2 mnemonic op1 op2 dst self)
  = foldl touch (_temps self) [op1; op2; dst].
Proof. unfold _emit_alu2. repeat step_temp. simpl. congruence. Qed.

(** A routine passes the operands [temps_of] lists to [_temp], in that
    order. *)
Lemma dispatch_temps (instr : TAC) (self self' : CodeEmitter) :
  dispatch instr self = (None, self') →
  _temps self' = foldl touch (_temps self) (temps_of instr).
Proof.
  unfold dispatch, getattr_emit, temps_of. simpl.
  change ("" +:+ opcode instr) with (opcode instr).
  repeat (destruct (String.eqb (opcode instr) _) eqn:E;
          [apply String.eqb_eq in E; rewrite E; clear E|clear E]);
    try discriminate; simpl;
    destruct (operands instr) as [|a [|b [|c [|d [|e l]]]]];
    simpl; try discriminate; intros [= <-];
    try apply emit_alu2_temps.
  - unfold _emit_const. repeat step_temp. simpl. congruence.
  - unfold _emit_copy. repeat step_temp. simpl. congruence.
  - unfold _emit_mod. repeat step_temp. simpl. congruence.
  - unfold _emit_print. repeat step_temp. simpl. congruence.
Qed.

Lemma emit_all_temps (body : list TAC) (self self' : CodeEmitter) :
  emit_all body self = (None, self') →
  _temps self' = foldl touch (_temps self) (referenced body).
Proof.
  revert self. induction body as [|instr body IH]; intros self; simpl.
  - by intros [= <-].
  - destruct (dispatch instr self) as [[e|] self1] eqn:Einstr; [done|].
    intros Hbody. unfold referenced. simpl. rewrite foldl_app.
    rewrite <-(dispatch_temps _ _ _ Einstr). by apply IH.
Qed.

Lemma slots_use (order : list string) (temps : gmap string nat)
  (t : string) :
  slots order temps → slots (use order t) (touch temps t).
Proof.
  intros [Hnodup Hsize Hlookup]. unfold use, touch.
  destruct (temps !! t) as [i|] eqn:Et.
  - rewrite bool_decide_eq_true_2; [done|].
    apply Hlookup in Et. by eapply list_elem_of_lookup_2.
  - assert (t ∉ order) as Hout.
    { intros [i Hi]%list_elem_of_lookup_1. apply Hlookup in Hi. congruence. }
    rewrite bool_decide_eq_false_2 by done. split.
    + apply NoDup_app. split; [done|]. split; [|apply NoDup_singleton].
      by intros u Hu ->%list_elem_of_singleton.
    + rewrite map_size_insert_None by done. rewrite length_app. simpl. lia.
    + intros u i. rewrite lookup_insert. case_decide as Hu.
      * subst u. rewrite Hsize. split.
        -- intros [= <-]. by rewrite lookup_app_r, Nat.sub_diag.
        -- intros Hi. f_equal.
           destruct (decide (i < length order)%nat) as [Hlt|Hge].
           ++ rewrite lookup_app_l in Hi by done.
              by apply list_elem_of_lookup_2 in Hi.
           ++ rewrite lookup_app_r in Hi by lia.
              destruct (i - length order)%nat as [|n] eqn:En; [lia|].
              done.
      * rewrite Hlookup. split.
        -- intros Hi. rewrite lookup_app_l; [done|].
           by eapply lookup_lt_Some.
        -- intros Hi.
           destruct (decide (i < length order)%nat) as [Hlt|Hge].
           ++ by rewrite lookup_app_l in Hi.
           ++ rewrite lookup_app_r in Hi by lia.
              destruct (i - length order)%nat; simpl in Hi; [|done].
              congruence.
Qed.

Lemma slots_foldl (refs order : list string) (temps : gmap string nat) :
  slots order temps → slots (foldl use order refs) (foldl touch temps refs).
Proof.
  revert order temps. induction refs as [|t refs IH]; intros order temps;
    simpl; [done|].
  intros Hslots. by apply IH, slots_use.
Qed.

Lemma slots_empty : slots [] ∅.
Proof.
  split; [constructor|done|].
  intros t i. by rewrite lookup_empty, lookup_nil.
Qed.

Lemma first_uses_foldl (refs : list string) :
  first_uses refs = foldl use [] refs.
Proof. reflexivity. Qed.

Lemma elem_of_foldl_use (refs seen : list string) (t : string) :
  t ∈ foldl use seen refs ↔ t ∈ seen ∨ t ∈ refs.
Proof.
  revert seen. induction refs as [|u refs IH]; intros seen; simpl.
  - rewrite elem_of_nil. tauto.
  - rewrite IH, elem_of_cons. unfold use. case_bool_decide as Hu.
    + split; [tauto|]. intros [?|[->|?]]; auto.
    + rewrite elem_of_app, list_elem_of_singleton. tauto.
Qed.

(** The first-use order lists every referenced temporary once. *)
Lemma first_uses_distinct (refs : list string) :
  length (first_uses refs) = size (list_to_set refs : gset string).
Proof.
  pose proof (slots_foldl refs [] ∅ slots_empty) as [Hnodup _ _].
  rewrite <-(size_list_to_set (C := gset string)) by done.
  f_equal. apply set_eq. intros t.
  rewrite !elem_of_list_to_set, first_uses_foldl, elem_of_foldl_use.
  rewrite elem_of_nil. tauto.
Qed.

Lemma land_one (n : Z) : Z.land n 1 = n `mod` 2.
Proof. apply (Z.land_ones n 1). lia. Qed.

(** *** The interchange format *)

Lemma as_str_list_strings (args : list string) :
  list_of_gen as_str (JString <$> args) = Ok args.
Proof.
  induction args as [|a args IH]; [done|].
  rewrite fmap_cons. cbn [list_of_gen as_str mbind result_bind].
  by rewrite IH.
Qed.

Lemma read_instr_tojson (x : TAC) : read_instr (tojson x) = Ok x.
Proof.
  destruct x as [op args res]. unfold read_instr, tojson. simpl.
  rewrite as_str_list_strings. simpl. by destruct res.
Qed.

Lemma read_instrs_tojson (tac : list TAC) :
  list_of_gen read_instr (tojson <$> tac) = Ok tac.
Proof.
  induction tac as [|x tac IH]; [done|].
  rewrite fmap_cons. cbn [list_of_gen].
  rewrite read_instr_tojson. cbn [mbind result_bind]. by rewrite IH.
Qed.

Lemma read_document_aout (tac : list TAC) : read_document (aout tac) = Ok tac.
Proof. unfold read_document, aout. simpl. apply read_instrs_tojson. Qed.

Lemma py_eq_strings (args : list string) :
  py_eq (JList (JString <$> args)) (JList (JString <$> args)).
Proof.
  constructor. induction args as [|a args IH]; constructor; [|done].
  constructor.
Qed.

Lemma fields_length {A} (fs : list (string * A)) (keys : list string) :
  fs.*1 ≡ₚ keys → length fs = length keys.
Proof. intros H. apply Permutation_length in H. by rewrite length_fmap in H. Qed.

Lemma fields_nodup {A} (fs : list (string * A)) (keys : list string) :
  fs.*1 ≡ₚ keys → NoDup keys → NoDup fs.*1.
Proof. intros H. by rewrite H. Qed.

Lemma instr_keys_nodup : NoDup ["opcode"; "args"; "result"].
Proof. apply (bool_decide_unpack _). by vm_compute. Qed.

Lemma proc_keys_nodup : NoDup ["proc"; "body"].
Proof. apply (bool_decide_unpack _). by vm_compute. Qed.

(** What the front end writes is well formed. *)
Lemma tojson_interchange (x : TAC) : interchange_instr (tojson x).
Proof.
  exists [("opcode", JString (opcode x));
          ("args", JList (JString <$> arguments x));
          ("result", from_option JString JNull (result x))],
         (opcode x), (arguments x), (result x).
  split; [by destruct x as [? ? []]|]. split; [done|]. by repeat split.
Qed.

Lemma proc_interchange (name : string) (tac : list TAC) :
  interchange_proc name
    (JObject [("proc", JString name); ("body", JList (tojson <$> tac))]).
Proof.
  eexists _, _. split; [reflexivity|]. split; [done|].
  split; [done|]. split; [done|].
  apply Forall_fmap, Forall_forall. intros x _. apply tojson_interchange.
Qed.

Lemma aout_single_main (tac : list TAC) : single_main_document (aout tac).
Proof. eexists. split; [reflexivity|]. apply proc_interchange. Qed.

(** Reading an instruction object and encoding it again gives an equal
    dict. *)
Lemma tojson_read_instr (d : json) :
  interchange_instr d →
  ∃ x, read_instr d = Ok x ∧ py_eq (tojson x) d.
Proof.
  intros (fs & op & args & res & -> & Hkeys & Hop & Hargs & Hres).
  exists (Build_TAC op args res). split.
  - unfold read_instr. simpl. rewrite Hop, Hargs, Hres. simpl.
    rewrite as_str_list_strings. simpl. by destruct res.
  - unfold tojson. simpl. apply py_eq_dict.
    + apply instr_keys_nodup.
    + apply (fields_nodup _ _ Hkeys), instr_keys_nodup.
    + by rewrite (fields_length _ _ Hkeys).
    + intros k v. simpl.
      repeat (destruct (String.eqb k _) eqn:E;
              [apply String.eqb_eq in E as ->; intros [= <-]|clear E]);
        [..|done].
      * eexists. split; [done|constructor].
      * eexists. split; [done|apply py_eq_strings].
      * eexists. split; [done|]. destruct res; constructor.
Qed.

Lemma tojson_read_instrs (body : list json) :
  Forall interchange_instr body →
  ∃ tac, list_of_gen read_instr body = Ok tac
         ∧ Forall2 py_eq (tojson <$> tac) body.
Proof.
  induction 1 as [|d body Hd _ (tac & Htac & Heq)].
  - by exists [].
  - destruct (tojson_read_instr d Hd) as (x & Hx & Hxd).
    exists (x :: tac). simpl. rewrite Hx. simpl. rewrite Htac. simpl.
    split; [done|]. by constructor.
Qed.

(** C9, counterexample. A well-formed document with a second procedure is
    read as the body of [@main] alone; encoding that body gives a document
    with one procedure, which differs from the one read. *)
Lemma second_procedure_is_dropped :
  interchange_document two_procedures
  ∧ read_document two_procedures = Ok []
  ∧ ¬ py_eq (aout []) two_procedures.
Proof.
  split; [|split; [reflexivity|]].
  - eexists. split; [reflexivity|].
    constructor; [|constructor; [|constructor]].
    + exists "@main". apply (proc_interchange "@main" []).
    + exists "@f". apply (proc_interchange "@f" []).
  - unfold aout, two_procedures. simpl. intros H.
    inversion H as [| |xs ys Hlist|]; subst.
    apply Forall2_length in Hlist. discriminate.
Qed.

(** C9, as amended. Reading the object [tojson] builds for an instruction
    gives that instruction back, and reading the document [_main] builds
    for a sequence gives that sequence back.  Conversely a well-formed
    instruction object, and a well-formed document that holds the single
    procedure [@main], are equal to the encoding of what is read from
    them. *)
Theorem interchange_round_trip :
  (∀ x : TAC, read_instr (tojson x) = Ok x)
  ∧ (∀ tac : list TAC, read_document (aout tac) = Ok tac)
  ∧ (∀ d, interchange_instr d →
          ∃ x, read_instr d = Ok x ∧ py_eq (tojson x) d)
  ∧ (∀ d, single_main_document d →
          ∃ tac, read_document d = Ok tac ∧ py_eq (aout tac) d).
Proof.
  split; [exact read_instr_tojson|]. split; [exact read_document_aout|].
  split; [exact tojson_read_instr|].
  intros d (p & -> & fs & body & -> & Hkeys & Hproc & Hbody & Hinstrs).
  destruct (tojson_read_instrs body Hinstrs) as (tac & Htac & Heq).
  exists tac. split.
  - unfold read_document, main_body. simpl. rewrite Hproc. simpl.
    rewrite Hbody. simpl. done.
  - unfold aout. constructor. constructor; [|constructor].
    apply py_eq_dict.
    + apply proc_keys_nodup.
    + apply (fields_nodup _ _ Hkeys), proc_keys_nodup.
    + by rewrite (fields_length _ _ Hkeys).
    + intros k v. simpl.
      repeat (destruct (String.eqb k _) eqn:E;
              [apply String.eqb_eq in E as ->; intros [= <-]|clear E]);
        [..|done].
      * eexists. split; [done|constructor].
      * eexists. split; [done|]. by constructor.
Qed.

(** The theorem at the document written for scenario C. *)
Lemma interchange_round_trip_witness :
  ∃ tac, read_document (aout scenario_C) = Ok tac
         ∧ py_eq (aout tac) (aout scenario_C).
Proof.
  apply (proj2 (proj2 (proj2 interchange_round_trip))).
  apply aout_single_main.
Defined.

End Tac2armFacts.

(** ** Further properties of the decoder of Labs1/bxc.py *)

Module BxcMore.
Import Py.
Import Bxc.
Import BxcNotions.
Import BxcFacts.

(** *** The grammar of tags *)

Lemma append_nil (s : string) : EmptyString +:+ s = s.
Proof. reflexivity. Qed.

Lemma append_cons (c : ascii) (s t : string) :
  String c s +:+ t = String c (s +:+ t).
Proof. reflexivity. Qed.

Lemma span_word_app (w r : string) :
  all_word w = true → stops r → span_word (w +:+ r) = (w, r).
Proof.
  intros Hw Hr. induction w as [|c w IH].
  - rewrite append_nil. destruct r as [|c r]; simpl; [done|].
    simpl in Hr. by rewrite Hr.
  - simpl in Hw. apply andb_prop in Hw as [Hc Hw].
    rewrite append_cons. simpl. rewrite Hc. by rewrite IH.
Qed.

Lemma span_word_spec (s w r : string) :
  span_word s = (w, r) → s = w +:+ r ∧ all_word w = true ∧ stops r.
Proof.
  revert w r. induction s as [|c s IH]; intros w r; simpl.
  - by intros [= <- <-].
  - destruct (is_word c) eqn:Hc.
    + destruct (span_word s) as [w' r'] eqn:E. intros [= <- <-].
      destruct (IH _ _ eq_refl) as (-> & Hw & Hr).
      rewrite append_cons. simpl. by rewrite Hc, Hw.
    + intros [= <- <-]. rewrite append_nil. simpl. by rewrite Hc.
Qed.

Lemma at_end_spec (r : string) :
  at_end r = true ↔ r = EmptyString ∨ r = String "010" EmptyString.
Proof.
  destruct r as [|c [|c' r]]; simpl.
  - split; [by left|done].
  - rewrite Ascii.eqb_eq. split; [intros ->; by right|].
    by intros [|[= ->]].
  - split; [done|]. by intros [|].
Qed.

Lemma append_nil_r (s : string) : s +:+ EmptyString = s.
Proof.
  induction s as [|c s IH]; [done|]. by rewrite append_cons, IH.
Qed.

Lemma append_assoc (s t u : string) : (s +:+ t) +:+ u = s +:+ t +:+ u.
Proof.
  induction s as [|c s IH]; [done|]. by rewrite !append_cons, IH.
Qed.

Lemma format_tag_app (clazz : string) (kind : option string) (r : string) :
  format_tag clazz kind +:+ r
  = String "<"
      (clazz +:+ match kind with
                 | Some k => String ":" (k +:+ String ">" r)
                 | None => String ">" r
                 end).
Proof.
  unfold format_tag. rewrite (append_cons "<"), append_assoc.
  destruct kind as [k|]; [|done].
  by rewrite (append_cons ":"), append_assoc.
Qed.

Lemma parse_tag_format (clazz : string) (kind : option string) (r : string) :
  word clazz → (∀ k, kind = Some k → word k) → at_end r = true →
  parse_tag (format_tag clazz kind +:+ r) = Ok (clazz, kind).
Proof.
  intros [Hcne Hcw] Hk Hr. rewrite format_tag_app. unfold parse_tag.
  destruct kind as [k|].
  - destruct (Hk k eq_refl) as [Hkne Hkw].
    rewrite span_word_app by done.
    destruct clazz as [|a clazz]; [done|]. cbn iota beta.
    rewrite span_word_app by done.
    destruct k as [|b k]; [done|]. cbn iota beta. by rewrite Hr.
  - rewrite span_word_app by done.
    destruct clazz as [|a clazz]; [done|]. cbn iota beta. by rewrite Hr.
Qed.

Lemma parse_tag_ok (tag clazz : string) (kind : option string) :
  parse_tag tag = Ok (clazz, kind) ↔
  word clazz
  ∧ (∀ k, kind = Some k → word k)
  ∧ (tag = format_tag clazz kind ∨ tag = format_tag clazz kind +:+ newline).
Proof.
  split.
  - unfold parse_tag. destruct tag as [|c s]; [done|].
    destruct (Ascii.eqb c "<") eqn:Ec;
      [apply Ascii.eqb_eq in Ec as ->|
       by repeat (case_match; simplify_eq; try done)].
    destruct (span_word s) as [w r] eqn:Es.
    apply span_word_spec in Es as (-> & Hw & Hr).
    destruct w as [|a w]; [done|].
    destruct r as [|c r]; [done|].
    destruct (Ascii.eqb c ">") eqn:Egt.
    { apply Ascii.eqb_eq in Egt as ->.
      destruct (at_end r) eqn:Eend; [|done]. intros [= <- <-].
      split; [by split|]. split; [done|].
      apply at_end_spec in Eend as [-> | ->]; [by left|right].
      by rewrite format_tag_app. }
    destruct (Ascii.eqb c ":") eqn:Ecolon;
      [apply Ascii.eqb_eq in Ecolon as ->|
       by repeat (case_match; simplify_eq; try done)].
    destruct (span_word r) as [w2 r2] eqn:Er.
    apply span_word_spec in Er as (-> & Hw2 & Hr2).
    destruct w2 as [|b w2]; [done|].
    destruct r2 as [|c2 r2]; [done|].
    destruct (Ascii.eqb c2 ">") eqn:Egt2;
      [apply Ascii.eqb_eq in Egt2 as ->|
       by repeat (case_match; simplify_eq; try done)].
    destruct (at_end r2) eqn:Eend; [|done]. intros [= <- <-].
    split; [by split|]. split; [by intros k [= <-]|].
    apply at_end_spec in Eend as [-> | ->]; [by left|right].
    by rewrite format_tag_app.
  - intros (Hc & Hk & [-> | ->]).
    + rewrite <-(append_nil_r (format_tag clazz kind)).
      by apply parse_tag_format.
    + by apply parse_tag_format.
Qed.

(** On ASCII text, [parse_tag] returns for exactly the strings [<class>]
    and [<class:kind>] whose class and kind are words, each possibly
    followed by one newline (the [$] of the pattern also matches before a
    final newline); it returns the class and the kind, and raises
    [InvalidBXJSon] for every other string. *)
Theorem parse_tag_grammar (tag : string) :
  ascii_only tag = true →
  (∀ clazz kind,
     parse_tag tag = Ok (clazz, kind) ↔
     word clazz
     ∧ (∀ k, kind = Some k → word k)
     ∧ (tag = format_tag clazz kind
        ∨ tag = format_tag clazz kind +:+ newline))
  ∧ (parse_tag tag = Raise InvalidBXJSon ↔
     ¬ ∃ clazz kind,
         word clazz
         ∧ (∀ k, kind = Some k → word k)
         ∧ (tag = format_tag clazz kind
            ∨ tag = format_tag clazz kind +:+ newline)).
Proof.
  intros _. split; [intros clazz kind; apply parse_tag_ok|]. split.
  - intros Hraise (clazz & kind & H). apply parse_tag_ok in H. congruence.
  - intros Hnone. destruct (parse_tag tag) as [[clazz kind]|e] eqn:E.
    + destruct Hnone. exists clazz, kind. by apply parse_tag_ok.
    + by apply parse_tag_raises in E as ->.
Qed.

(** The theorem at the tag of a call node and at a tag without brackets. *)
Lemma parse_tag_grammar_witness :
  parse_tag "<expression:call>" = Ok ("expression", Some "call")
  ∧ parse_tag "expression" = Raise InvalidBXJSon.
Proof.
  split.
  - apply (proj1 (parse_tag_grammar "<expression:call>" eq_refl)).
    split; [by split|]. split; [|by left].
    intros k [= <-]. by split.
  - apply (proj2 (parse_tag_grammar "expression" eq_refl)).
    intros (clazz & kind & _ & _ & [H | H]); by destruct kind.
Defined.

(** *** The shallow schema check *)

Lemma check_field_ok (fs : list (string * json)) (entry : string * etype) :
  check_field fs entry = Ok () ↔ field_ok fs entry.
Proof.
  unfold check_field, field_ok. destruct entry as [k et]. simpl.
  destruct et as [|clazz|].
  - destruct (assoc k fs); split; done.
  - split.
    + destruct (assoc k fs) as [v|]; [|done].
      destruct v as [| | | | |[|[] [|payload [|]]]|]; try done.
      destruct (parse_tag s) as [[c kind]|] eqn:Etag; [|done]. simpl.
      destruct (String.eqb c clazz) eqn:Ec; [|done].
      apply String.eqb_eq in Ec as ->. intros _. by exists s, payload, kind.
    + intros (tag & payload & kind & -> & ->). simpl.
      by rewrite String.eqb_refl.
  - split.
    + destruct (assoc k fs) as [v|]; [|done].
      destruct v; try done; intros _; eexists; (split; [done|]).
      * right. by eexists.
      * left. by eexists.
    + by intros (v & -> & [[n ->]|[b ->]]).
Qed.

Lemma check_fields_ok (fs : list (string * json))
  (schema : list (string * etype)) :
  check_fields fs schema = Ok () ↔ Forall (field_ok fs) schema.
Proof.
  induction schema as [|entry schema IH]; simpl.
  - split; [constructor|done].
  - rewrite Forall_cons, <-IH, <-check_field_ok.
    destruct (check_field fs entry) as [[]|e]; simpl; [tauto|].
    split; [done|]. by intros [? _].
Qed.

Lemma check_shallow_schema_ok (data : json)
  (schema : list (string * etype)) :
  check_shallow_schema data schema = Ok () ↔
  ∃ fs, data = JObject fs ∧ Forall (field_ok fs) schema.
Proof.
  destruct data; simpl; try (split; [done|by intros (? & [=] & _)]).
  rewrite check_fields_ok. split.
  - intros H. by exists fields.
  - by intros (fs & [= <-] & H).
Qed.

(** [check_shallow_schema] returns exactly when [data] is a dict that
    holds every field of the schema with the shape the schema asks for: any
    value, a two-element list headed by a tag of the given class, or an
    [int] (which a [bool] is).  Otherwise it raises [InvalidBXJSon], and
    never another exception. *)
Theorem check_shallow_schema_spec (data : json)
  (schema : list (string * etype)) :
  (check_shallow_schema data schema = Ok () ↔
   ∃ fs, data = JObject fs ∧ Forall (field_ok fs) schema)
  ∧ (∀ e, check_shallow_schema data schema = Raise e → e = InvalidBXJSon).
Proof.
  split; [apply check_shallow_schema_ok|apply check_shallow_schema_raises].
Qed.

(** *** Decoding nodes that pass their schema *)

Lemma parse_name_node (tag payload : json) :
  parse_name (JList [tag; payload]) = getitem_str payload "value".
Proof.
  unfold parse_name. simpl.
  pose proof (getitem_str_not_IndexError payload "value").
  by destruct (getitem_str payload "value") as [|[]].
Qed.

Lemma class_field_passes (fs : list (string * json)) (k clazz tag : string)
  (payload : json) (kind : option string) :
  assoc k fs = Some (JList [JString tag; payload]) →
  parse_tag tag = Ok (clazz, kind) →
  check_field fs (k, EClass clazz) = Ok ().
Proof. intros H1 H2. apply check_field_ok. by exists tag, payload, kind. Qed.

(** A [uniop] and a [binop] node that pass their schema decode to an
    application: the operator is the [value] of the operator's name node,
    the arguments are decoded in the order argument, or left then right,
    and the first exception on the way is the one raised. *)
Theorem operator_nodes_decode_in_order (fs : list (string * json)) :
  (∀ po ta pa,
     uniop_fields fs po ta pa →
     expression_of_json (JString "<expression:uniop>") (JObject fs)
     = (operator ← getitem_str po "value";
        argument ← expression_of_json (JString ta) pa;
        Ok (OpAppExpression operator [argument])))
  ∧ (∀ po tl pl tr pr,
       binop_fields fs po tl pl tr pr →
       expression_of_json (JString "<expression:binop>") (JObject fs)
       = (operator ← getitem_str po "value";
          left ← expression_of_json (JString tl) pl;
          right ← expression_of_json (JString tr) pr;
          Ok (OpAppExpression operator [left; right]))).
Proof.
  split.
  - intros po ta pa [(tago & ko & Ho & Hto) (ka & Ha & Hta)].
    rewrite expression_of_json_unfold. unfold expression_of_json_body.
    simpl. rewrite (class_field_passes _ _ _ _ _ _ Ho Hto). simpl.
    rewrite (class_field_passes _ _ _ _ _ _ Ha Hta). simpl.
    unfold expression_uniop_of_json. simpl. rewrite Ho, Ha. simpl.
    by rewrite parse_name_node.
  - intros po tl pl tr pr
      [(tago & ko & Ho & Hto) [(kl & Hl & Htl) (kr & Hr & Htr)]].
    rewrite expression_of_json_unfold. unfold expression_of_json_body.
    simpl. rewrite (class_field_passes _ _ _ _ _ _ Ho Hto). simpl.
    rewrite (class_field_passes _ _ _ _ _ _ Hl Htl). simpl.
    rewrite (class_field_passes _ _ _ _ _ _ Hr Htr). simpl.
    unfold expression_binop_of_json. simpl. rewrite Ho, Hl, Hr. simpl.
    by rewrite parse_name_node.
Qed.

(** The theorem at [-7] and at [1 + 2]. *)
Lemma operator_nodes_decode_in_order_witness :
  expression_of_json (JString "<expression:uniop>")
    (JObject [("operator", Scenarios.name_node "opposite");
              ("argument", Scenarios.int_node 7)])
  = Ok (OpAppExpression (JString "opposite") [IntExpression (JInt 7)])
  ∧ expression_of_json (JString "<expression:binop>")
      (JObject [("operator", Scenarios.name_node "addition");
                ("left", Scenarios.int_node 1);
                ("right", Scenarios.int_node 2)])
    = Ok (OpAppExpression (JString "addition")
            [IntExpression (JInt 1); IntExpression (JInt 2)]).
Proof.
  split.
  - etrans.
    + apply (proj1 (operator_nodes_decode_in_order _)
               (JObject [("value", JString "opposite")])
               "<expression:int>" (JObject [("value", JInt 7)])).
      split; [by eexists _, _|by eexists].
    + reflexivity.
  - etrans.
    + apply (proj2 (operator_nodes_decode_in_order _)
               (JObject [("value", JString "addition")])
               "<expression:int>" (JObject [("value", JInt 1)])
               "<expression:int>" (JObject [("value", JInt 2)])).
      split; [by eexists _, _|]. split; by eexists.
    + reflexivity.
Defined.

(** An [int] node decodes exactly when its payload is a dict whose [value]
    is an [int] or a [bool] (for which [isinstance(value, int)] holds too);
    the value is stored as it is.  Floats, strings and [None] are
    rejected. *)
Theorem int_node_takes_int_or_bool (data : json) (e : Expression) :
  expression_of_json (JString "<expression:int>") data = Ok e ↔
  ∃ fs v,
    data = JObject fs ∧ assoc "value" fs = Some v
    ∧ ((∃ n, v = JInt n) ∨ (∃ b, v = JBool b))
    ∧ e = IntExpression v.
Proof.
  rewrite expression_of_json_unfold. unfold expression_of_json_body. simpl.
  destruct (check_shallow_schema data EXPRESSION_INT_SCHEMA) as [[]|err]
    eqn:Eschema; simpl.
  - apply check_shallow_schema_ok in Eschema as (fs & -> & Hfs).
    apply Forall_singleton in Hfs as (v & Hv & Hint). simpl in Hv.
    unfold expression_int_of_json. simpl. rewrite Hv. simpl. split.
    + intros [= <-]. by exists fs, v.
    + intros (fs' & v' & [= <-] & Hv' & _ & ->). congruence.
  - split; [done|]. intros (fs & v & -> & Hv & Hint & _).
    assert (check_shallow_schema (JObject fs) EXPRESSION_INT_SCHEMA = Ok ())
      as Hok; [|congruence].
    apply check_shallow_schema_ok. exists fs. split; [done|].
    apply Forall_singleton. by exists v.
Qed.

(** The name of a variable is whatever value the payload of its name node
    holds under [value]: neither [expression_of_json] nor
    [statement_of_json] checks that it is a string. *)
Theorem variable_name_is_unchecked (fs : list (string * json))
  (payload name : json) :
  name_field fs payload →
  getitem_str payload "value" = Ok name →
  expression_of_json (JString "<expression:var>") (JObject fs)
    = Ok (VarExpression name)
  ∧ statement_of_json (JString "<statement:vardecl>") (JObject fs)
    = Ok (VarDeclStatement name).
Proof.
  intros (tag & k & Hname & Htag) Hvalue. split.
  - rewrite expression_of_json_unfold. unfold expression_of_json_body.
    simpl. rewrite (class_field_passes _ _ _ _ _ _ Hname Htag). simpl.
    unfold expression_var_of_json. simpl. rewrite Hname. simpl.
    by rewrite parse_name_node, Hvalue.
  - unfold statement_of_json. simpl.
    rewrite (class_field_passes _ _ _ _ _ _ Hname Htag). simpl.
    unfold statement_vardecl_of_json. simpl. rewrite Hname. simpl.
    by rewrite parse_name_node, Hvalue.
Qed.

(** The theorem at a name node whose value is the number 42. *)
Lemma variable_name_is_unchecked_witness :
  expression_of_json (JString "<expression:var>")
    (JObject [("name", JList [JString "<name>";
                              JObject [("value", JInt 42)]])])
    = Ok (VarExpression (JInt 42))
  ∧ statement_of_json (JString "<statement:vardecl>")
      (JObject [("name", JList [JString "<name>";
                                JObject [("value", JInt 42)]])])
    = Ok (VarDeclStatement (JInt 42)).
Proof.
  apply (variable_name_is_unchecked _ (JObject [("value", JInt 42)]));
    [by eexists _, _|reflexivity].
Defined.

(** An [assign] node that passes its schema decodes to an assignment: the
    left-hand side is the [value] of the name node found under [name] in
    the payload of the lvalue, read before the right-hand side is
    decoded. *)
Theorem assign_node_decodes (fs : list (string * json))
  (pl : json) (tr : string) (pr : json) :
  assign_fields fs pl tr pr →
  statement_of_json (JString "<statement:assign>") (JObject fs)
  = (lhs ← (getitem_str pl "name" ≫= parse_name);
     rhs ← expression_of_json (JString tr) pr;
     Ok (AssignStatement lhs rhs)).
Proof.
  intros [(tagl & kl & Hl & Htl) (kr & Hr & Htr)].
  unfold statement_of_json. simpl.
  rewrite (class_field_passes _ _ _ _ _ _ Hl Htl). simpl.
  rewrite (class_field_passes _ _ _ _ _ _ Hr Htr). simpl.
  unfold statement_assign_of_json. simpl. rewrite Hl, Hr. simpl.
  by destruct (getitem_str pl "name").
Qed.

(** The theorem at [x = 1]. *)
Lemma assign_node_decodes_witness :
  statement_of_json (JString "<statement:assign>")
    (JObject [("lvalue", JList [JString "<lvalue:var>";
                                JObject [("name", Scenarios.name_node "x")]]);
              ("rvalue", Scenarios.int_node 1)])
  = Ok (AssignStatement (JString "x") (IntExpression (JInt 1))).
Proof.
  etrans.
  - apply (assign_node_decodes _
             (JObject [("name", Scenarios.name_node "x")])
             "<expression:int>" (JObject [("value", JInt 1)])).
    split; [by eexists _, _|by eexists].
  - reflexivity.
Defined.

(** *** The exceptions of the expression decoder *)

Lemma name_field_errors (payload : json) (e : exn) :
  getitem_str payload "value" = Raise e → decode_error e.
Proof.
  intros [-> | ->]%getitem_str_raises; [by right; right|by right; left].
Qed.

Lemma expression_of_json_body_errors
  (self : json → json → result Expression) (tag data : json)
  (P : exn → Prop) :
  (∀ e, decode_error e → P e) →
  (∀ a b e, self a b = Raise e → P e) →
  ∀ e, expression_of_json_body self tag data = Raise e → P e.
Proof.
  intros HP Hself e. unfold expression_of_json_body.
  destruct (parse_tag_value tag) as [[clazz kind]|e'] eqn:Etag; simpl.
  2: { intros [= <-]. apply HP.
       destruct tag; simpl in Etag; simplify_eq; try (by right; left).
       apply parse_tag_raises in Etag as ->. by left. }
  destruct (negb _); [intros [= <-]; apply HP; by left|].
  destruct kind as [k|]; [|intros [= <-]; apply HP; by left]. simpl.
  repeat (destruct (String.eqb k _); [
    match goal with
    | |- context [check_shallow_schema data ?sch] =>
        destruct (check_shallow_schema data sch) as [[]|e'] eqn:Eschema;
        simpl;
        [apply check_shallow_schema_ok in Eschema as (fs & -> & Hfs)
        |intros [= <-];
         apply check_shallow_schema_raises in Eschema as ->;
         apply HP; by left]
    end|]); [..|intros [= <-]; apply HP; by left].
  - apply Forall_singleton in Hfs as (t & p & kd & Hname & _).
    simpl in Hname. unfold expression_var_of_json. simpl. rewrite Hname.
    simpl. rewrite parse_name_node.
    destruct (getitem_str p "value") eqn:E; simpl; [done|].
    intros [= <-]. apply HP. by eapply name_field_errors.
  - apply Forall_singleton in Hfs as (v & Hv & _). simpl in Hv.
    unfold expression_int_of_json. simpl. by rewrite Hv.
  - apply Forall_cons in Hfs as [(to & po & ko & Ho & _) Hfs].
    apply Forall_singleton in Hfs as (ta & pa & ka & Ha & _).
    simpl in Ho, Ha. unfold expression_uniop_of_json. simpl.
    rewrite Ho, Ha. simpl. rewrite parse_name_node.
    destruct (getitem_str po "value") eqn:E; simpl;
      [|intros [= <-]; apply HP; by eapply name_field_errors].
    change (star2 self (JList [JString ta; pa])) with (self (JString ta) pa).
    destruct (self (JString ta) pa) eqn:Earg; simpl; [done|].
    intros [= <-]. by eapply Hself.
  - apply Forall_cons in Hfs as [(to & po & ko & Ho & _) Hfs].
    apply Forall_cons in Hfs as [(tl & pl & kl & Hl & _) Hfs].
    apply Forall_singleton in Hfs as (tr & pr & kr & Hr & _).
    simpl in Ho, Hl, Hr. unfold expression_binop_of_json. simpl.
    rewrite Ho, Hl, Hr. simpl. rewrite parse_name_node.
    destruct (getitem_str po "value") eqn:E; simpl;
      [|intros [= <-]; apply HP; by eapply name_field_errors].
    change (star2 self (JList [JString tl; pl])) with (self (JString tl) pl).
    change (star2 self (JList [JString tr; pr])) with (self (JString tr) pr).
    destruct (self (JString tl) pl) eqn:El; simpl;
      [|intros [= <-]; by eapply Hself].
    destruct (self (JString tr) pr) eqn:Er; simpl; [done|].
    intros [= <-]. by eapply Hself.
Qed.

(** Whatever the tag, the payload and the room the recursion limit leaves,
    [expression_of_json] raises nothing but [InvalidBXJSon], [TypeError]
    (a tag that is no string, a name payload that is no dict),
    [KeyError('value')] (a name payload without value) and, when the
    nesting exhausts the room, [RecursionError]; in particular never
    [IndexError], and never a [KeyError] for a field of the schema. *)
Theorem expression_of_json_errors (depth : nat) (tag data : json)
  (e : exn) :
  expression_of_json_upto depth tag data = Raise e →
  decode_error e ∨ e = RecursionError.
Proof.
  revert tag data e. induction depth as [|depth IH]; intros tag data e.
  - intros [= <-]. by right.
  - simpl.
    apply (expression_of_json_body_errors _ _ _
             (λ e, decode_error e ∨ e = RecursionError));
      [by left|apply IH].
Qed.

(** The theorem at a variable whose name node has no value, and at a
    negation with room for one activation only. *)
Lemma expression_of_json_errors_witness :
  (decode_error (KeyError (JString "value"))
   ∨ KeyError (JString "value") = RecursionError)
  ∧ (decode_error RecursionError ∨ RecursionError = RecursionError).
Proof.
  split.
  - apply (expression_of_json_errors 1 (JString "<expression:var>")
             (JObject [("name", JList [JString "<name>"; JObject []])])).
    reflexivity.
  - apply (expression_of_json_errors 1 (JString "<expression:uniop>")
             (JObject [("operator", Scenarios.name_node "opposite");
                       ("argument", Scenarios.int_node 1)])).
    reflexivity.
Defined.

(** The recursion of [expression_of_json] goes no deeper than the nesting
    of the payload: with room for more activations than the payload is
    nested, it does not raise [RecursionError], and its result is the same
    for every such room. *)
Theorem recursion_bounded_by_nesting (depth : nat) (tag data : json) :
  (json_depth data < depth)%nat →
  expression_of_json_upto depth tag data ≠ Raise RecursionError
  ∧ ∀ depth', (depth ≤ depth')%nat →
              expression_of_json_upto depth' tag data
              = expression_of_json_upto depth tag data.
Proof.
  intros Hdepth. split.
  - rewrite (expression_of_json_upto_stable depth (S (json_depth data)))
      by lia.
    apply expression_of_json_terminates.
  - intros depth' Hle. apply expression_of_json_upto_stable; lia.
Qed.

(** The theorem at the sum [1 + 2], whose node is nested six deep. *)
Lemma recursion_bounded_by_nesting_witness :
  let node :=
    JObject [("operator", Scenarios.name_node "addition");
             ("left", Scenarios.int_node 1);
             ("right", Scenarios.int_node 2)] in
  expression_of_json_upto 7 (JString "<expression:binop>") node
    ≠ Raise RecursionError
  ∧ expression_of_json_upto 1 (JString "<expression:binop>") node
    = Raise RecursionError.
Proof.
  intros node. split; [|reflexivity].
  apply (recursion_bounded_by_nesting 7 (JString "<expression:binop>") node).
  vm_compute. lia.
Defined.

(** *** Programs *)

Lemma list_of_gen_ok {A B} (f : A → result B) (xs : list A) (ys : list B) :
  list_of_gen f xs = Ok ys ↔ Forall2 (λ x y, f x = Ok y) xs ys.
Proof.
  revert ys. induction xs as [|x xs IH]; intros ys; simpl.
  - split; [intros [= <-]; constructor|by intros ->%Forall2_nil_inv_l].
  - split.
    + destruct (f x) as [y|] eqn:Ex; [|done]. simpl.
      destruct (list_of_gen f xs) as [ys'|] eqn:Exs; [|done]. simpl.
      intros [= <-]. constructor; [done|]. by apply IH.
    + intros (y & ys' & Hy & Hys & ->)%Forall2_cons_inv_l.
      rewrite Hy. simpl. apply IH in Hys. by rewrite Hys.
Qed.

(** The body of a program is read at [data['ast'][0][1]['body']]: the tag
    of the first element of [ast], anything after its payload and every
    further element of [ast] are ignored.  The program decodes exactly when
    every node of the body decodes as a statement, and then holds the
    statements in the order of the body. *)
Theorem bxprogram_of_json_reads_first_body
  (doc fs : list (string * json)) (tag : json) (more rest body : list json)
  (prgm : list Statement) :
  assoc "ast" doc = Some (JList (JList (tag :: JObject fs :: more) :: rest)) →
  assoc "body" fs = Some (JList body) →
  bxprogram_of_json (JObject doc) = Ok prgm ↔
  Forall2 (λ node stmt, star2 statement_of_json node = Ok stmt) body prgm.
Proof.
  intros Hast Hbody. unfold bxprogram_of_json. simpl.
  rewrite Hast. simpl. rewrite Hbody. simpl. apply list_of_gen_ok.
Qed.

(** The theorem at a document with two statements and unread extras. *)
Lemma bxprogram_of_json_reads_first_body_witness :
  bxprogram_of_json
    (JObject
       [("ast",
         JList
           [JList [JNull;
                   JObject
                     [("body",
                       JList
                         [JList [JString "<statement:vardecl>";
                                 JObject [("name", Scenarios.name_node "x")]];
                          JList [JString "<statement:eval>";
                                 Scenarios.eval_call "print"
                                   [Scenarios.int_node 1]]])];
                   JInt 0];
            JString "ignored"])])
  = Ok [VarDeclStatement (JString "x");
        PrintStatement (IntExpression (JInt 1))].
Proof.
  eapply bxprogram_of_json_reads_first_body; [reflexivity|reflexivity|].
  repeat constructor.
Defined.

(** An [ast] without a first element, and a first element without a second
    one, give [InvalidBXJSon]: these are the [IndexError]s the handler of
    [bxprogram_of_json] translates. *)
Theorem bxprogram_of_json_short_ast (doc : list (string * json)) (ast : json) :
  assoc "ast" doc = Some ast →
  getitem_int ast 0 = Raise IndexError
  ∨ (∃ node, getitem_int ast 0 = Ok node
             ∧ getitem_int node 1 = Raise IndexError) →
  bxprogram_of_json (JObject doc) = Raise InvalidBXJSon.
Proof.
  intros Hast H. unfold bxprogram_of_json. simpl. rewrite Hast. simpl.
  destruct H as [-> | (node & -> & Hnode)]; [done|]. simpl.
  by rewrite Hnode.
Qed.

(** The theorem at an empty [ast] and at a node that has only its tag. *)
Lemma bxprogram_of_json_short_ast_witness :
  bxprogram_of_json (JObject [("ast", JList [])]) = Raise InvalidBXJSon
  ∧ bxprogram_of_json (JObject [("ast", JList [JList [JString "<prgm>"]])])
    = Raise InvalidBXJSon.
Proof.
  split.
  - apply (bxprogram_of_json_short_ast _ (JList [])); [reflexivity|by left].
  - apply (bxprogram_of_json_short_ast _ (JList [JList [JString "<prgm>"]]));
      [reflexivity|right]. by eexists.
Defined.

Lemma list_of_gen_raises {A B} (f : A → result B) (pre post : list A)
  (x : A) (ys : list B) (e : exn) :
  Forall2 (λ x y, f x = Ok y) pre ys → f x = Raise e →
  list_of_gen f (pre ++ x :: post) = Raise e.
Proof.
  intros Hpre Hx. induction Hpre as [|x' y pre ys Hy _ IH]; simpl.
  - by rewrite Hx.
  - by rewrite Hy, IH.
Qed.

(** A call of [print] with an empty list of arguments passes the checks of
    the [eval] decoder and fails at [arguments[0]], outside its handler:
    the statement decoder raises [IndexError], and so does the program
    decoder for a body that holds such a statement after statements that
    decode, its own handler covering the path to the body only. *)
Theorem print_without_argument_raises_IndexError
  (fs : list (string * json)) (payload target : json) :
  assoc "expression" fs
    = Some (JList [JString "<expression:call>"; payload]) →
  getitem_str payload "target" = Ok target →
  parse_name target = Ok (JString "print") →
  getitem_str payload "arguments" = Ok (JList []) →
  statement_of_json (JString "<statement:eval>") (JObject fs)
    = Raise IndexError
  ∧ ∀ doc tag fs' more rest pre post stmts,
      assoc "ast" doc
        = Some (JList (JList (tag :: JObject fs' :: more) :: rest)) →
      assoc "body" fs'
        = Some (JList (pre ++ JList [JString "<statement:eval>"; JObject fs]
                           :: post)) →
      Forall2 (λ node stmt, star2 statement_of_json node = Ok stmt)
        pre stmts →
      bxprogram_of_json (JObject doc) = Raise IndexError.
Proof.
  intros Hexpr Htarget Hname Hargs.
  assert (statement_of_json (JString "<statement:eval>") (JObject fs)
          = Raise IndexError) as Hstmt.
  { rewrite statement_of_json_eval.
    assert (check_shallow_schema (JObject fs) STATEMENT_EVAL_SCHEMA = Ok ())
      as ->.
    { apply check_shallow_schema_ok. exists fs. split; [done|].
      apply Forall_singleton. by exists "<expression:call>", payload,
                                   (Some "call"). }
    simpl.
    rewrite (statement_eval_of_json_call _ payload "<expression:call>")
      by (simpl; by rewrite Hexpr).
    simpl. rewrite Htarget. simpl. rewrite Hname. simpl.
    by rewrite Hargs. }
  split; [done|].
  intros doc tag fs' more rest pre post stmts Hast Hbody Hpre.
  unfold bxprogram_of_json. simpl. rewrite Hast. simpl. rewrite Hbody.
  simpl. by apply (list_of_gen_raises _ _ _ _ stmts).
Qed.

(** The theorem at the program [print();]. *)
Lemma print_without_argument_raises_IndexError_witness :
  bxprogram_of_json
    (JObject
       [("ast",
         JList
           [JList [JString "<program>";
                   JObject
                     [("body",
                       JList
                         [JList [JString "<statement:eval>";
                                 Scenarios.eval_call "print" []]])]]])])
  = Raise IndexError.
Proof.
  refine (proj2 (print_without_argument_raises_IndexError
                   [("expression",
                     JList [JString "<expression:call>";
                            JObject [("target", Scenarios.name_node "print");
                                     ("arguments", JList [])]])]
                   (JObject [("target", Scenarios.name_node "print");
                             ("arguments", JList [])])
                   (Scenarios.name_node "print")
                   eq_refl eq_refl eq_refl eq_refl)
            _ (JString "<program>") _ [] [] [] [] [] _ _ _);
    [reflexivity|reflexivity|constructor].
Defined.

End BxcMore.

(** ** More on the lowering of Labs2/bxc-skeleton.py *)

Module SkeletonMore.
Import Py.
Import Skeleton.
Import SkeletonNotions.
Import Scenarios.
Import SkeletonFacts.


Lemma for_arguments_vars (es : list Expression) (self self' : MM)
  (ts : list string) :
  for_arguments es self = Ok (ts, self') → _vars self' = _vars self.
Proof.
  intros H.
  destruct (for_arguments_lowered es
              (Forall_true _ _ for_expression_lowered) _ _ _ H)
    as (new & Hl & _).
  apply Hl.
Qed.

(** *** When the lowering returns *)










(** *** The recursion limit *)








(** *** How much the lowering produces *)

Lemma for_arguments_sizes (es : list Expression) :
  Forall (λ e, ∀ self t self',
            for_expression e self = Ok (t, self') →
            length (_tac self') = (length (_tac self) + nodes e)%nat
            ∧ _counter self' = _counter self + Z.of_nat (nodes e)) es →
  ∀ self ts self',
    for_arguments es self = Ok (ts, self') →
    length ts = length es
    ∧ length (_tac self')
      = (length (_tac self) + sum_list (nodes <$> es))%nat
    ∧ _counter self'
      = _counter self + Z.of_nat (sum_list (nodes <$> es)).
Proof.
  induction 1 as [|e es He _ IH]; intros self ts self'; simpl.
  - intros [= <- <-]. repeat split; lia.
  - destruct (for_expression e self) as [[t self1]|] eqn:E; [|done]. simpl.
    destruct (for_arguments es self1) as [[ts' self2]|] eqn:Es; [|done].
    simpl. intros [= <- <-].
    destruct (He _ _ _ E) as [H1 H2], (IH _ _ _ Es) as (H3 & H4 & H5).
    simpl. change (list_fmap Expression nat nodes es) with (nodes <$> es).
    repeat split; lia.
Qed.

Lemma for_expression_sizes (e : Expression) :
  ∀ self t self',
    for_expression e self = Ok (t, self') →
    length (_tac self') = (length (_tac self) + nodes e)%nat
    ∧ _counter self' = _counter self + Z.of_nat (nodes e).
Proof.
  induction e as [name|v|operator es IH] using Expression_nested_ind;
    intros self t self'.
  - simpl. destruct (vars_get _ _); [|done]. simpl. intros [= <- <-].
    split; lia.
  - simpl. intros [= <- <-]. simpl. rewrite length_app. simpl. split; lia.
  - rewrite for_expression_OpApp, fresh_temporary_eq.
    destruct (for_arguments es _) as [[ts self1]|] eqn:Es; [|done]. simpl.
    destruct (opcodes_get operator); [|done]. simpl. intros [= <- <-].
    destruct (for_arguments_sizes es IH _ _ _ Es) as (_ & H1 & H2).
    simpl in H1, H2. cbn [nodes _tac _counter push]. rewrite length_app.
    simpl. split; lia.
Qed.

Lemma for_statement_sizes (stmt : Statement) (self self' : MM) :
  for_statement stmt self = Ok self' →
  length (_tac self') = (length (_tac self) + instructions stmt)%nat
  ∧ _counter self' = _counter self + Z.of_nat (temporaries stmt).
Proof.
  destruct stmt as [name init|lhs rhs|v].
  - rewrite for_statement_VarDecl. intros [= <-]. simpl.
    rewrite length_app. simpl. split; lia.
  - simpl. destruct (for_expression rhs self) as [[t self1]|] eqn:E;
      [|done]. simpl.
    destruct (vars_get _ _); [|done]. simpl. intros [= <-]. simpl.
    destruct (for_expression_sizes _ _ _ _ E). rewrite length_app. simpl.
    split; lia.
  - simpl. destruct (for_expression v self) as [[t self1]|] eqn:E;
      [|done]. simpl. intros [= <-]. simpl.
    destruct (for_expression_sizes _ _ _ _ E). rewrite length_app. simpl.
    split; lia.
Qed.

(** Lowering pushes one instruction for each literal and each operator
    application of the expressions it lowers and one more for each
    statement, and mints one temporary for each literal, each operator
    application and each declaration; reading a variable costs nothing. *)
Theorem lowering_sizes (prgm : Program) (self self' : MM) :
  for_program prgm self = Ok self' →
  length (_tac self')
  = (length (_tac self) + sum_list (instructions <$> prgm))%nat
  ∧ _counter self'
    = _counter self + Z.of_nat (sum_list (temporaries <$> prgm)).
Proof.
  revert self. induction prgm as [|stmt prgm IH]; intros self; simpl.
  - intros [= <-]. split; lia.
  - destruct (for_statement stmt self) as [self1|] eqn:E; [|done]. simpl.
    intros H. destruct (for_statement_sizes _ _ _ E), (IH _ H).
    change (list_fmap Statement nat instructions prgm)
      with (instructions <$> prgm).
    change (list_fmap Statement nat temporaries prgm)
      with (temporaries <$> prgm).
    split; lia.
Qed.

(** The theorem at scenario A: six instructions and four temporaries. *)
Lemma lowering_sizes_witness :
  ∃ self', for_program scenario_A MM_init = Ok self'
           ∧ length (_tac self') = 6%nat ∧ _counter self' = 3.
Proof.
  eexists. split; [reflexivity|].
  apply (lowering_sizes scenario_A MM_init). reflexivity.
Defined.

End SkeletonMore.

(** ** More on the emitter of Labs1/tac2arm.py *)

Module Tac2armMore.
Import Py.
Import Skeleton.
Import Tac2arm.
Import Tac2armNotions.
Import Scenarios.
Import Tac2armFacts.

(** *** Accepted and rejected instructions *)

Lemma dispatch_rejection (instr : TAC) (self : CodeEmitter) :
  dispatch instr self
  = match rejection instr with
    | None => (None, (dispatch instr self).2)
    | Some e => (Some e, self)
    end.
Proof.
  unfold rejection, emit_arity.
  destruct (decide (opcode instr ∈ emit_opcodes)) as [Hin|Hout].
  - rewrite (bool_decide_eq_true_2 _ Hin).
    unfold dispatch, getattr_emit. simpl.
    change ("" +:+ opcode instr) with (opcode instr).
    generalize (operands instr). intros l. unfold emit_opcodes in Hin.
    repeat (apply elem_of_cons in Hin as [-> | Hin]);
      [..|by apply elem_of_nil in Hin];
      simpl; destruct l as [|a [|b [|c [|d [|e l]]]]]; reflexivity.
  - rewrite (bool_decide_eq_false_2 _ Hout). unfold dispatch.
    by rewrite getattr_emit_unknown.
Qed.

Lemma dispatch_rejected (instr : TAC) (self self' : CodeEmitter) (e : exn) :
  dispatch instr self = (Some e, self') →
  rejection instr = Some e ∧ self' = self.
Proof.
  rewrite dispatch_rejection. destruct (rejection instr); [|done].
  by intros [= -> <-].
Qed.

Lemma dispatch_accepted (instr : TAC) (self : CodeEmitter) :
  (dispatch instr self).1 = rejection instr.
Proof. rewrite dispatch_rejection. by destruct (rejection instr). Qed.

Lemma rejection_arity (instr : TAC) :
  rejection instr = None
  ↔ emit_arity (opcode instr) = Some (length (operands instr)).
Proof.
  unfold rejection. destruct (emit_arity (opcode instr)) as [n|]; [|done].
  case_bool_decide; split; try done; [congruence|by intros [= ->]].
Qed.

Lemma emit_all_accepts (body : list TAC) :
  ∀ self, (emit_all body self).1 = None
          ↔ Forall (λ i, rejection i = None) body.
Proof.
  induction body as [|instr body IH]; intros self; simpl; [done|].
  rewrite Forall_cons, <- (dispatch_accepted instr self).
  destruct (dispatch instr self) as [[e|] self1]; simpl.
  - split; [done|by intros [? _]].
  - rewrite IH. split; [done|by intros [_ ?]].
Qed.

(** Whether [__call__] accepts an instruction depends on its opcode and on
    the number of its operands alone: it returns when the class has a
    method [_emit_<opcode>] taking that many arguments, raises
    [AttributeError] when it has no such method and [TypeError] when the
    number is wrong.  An instruction it rejects emits nothing and assigns
    no slot. *)
Theorem call_outcome (instr : TAC) (self : CodeEmitter) :
  (dispatch instr self).1 = rejection instr
  ∧ (∀ e, (dispatch instr self).1 = Some e → (dispatch instr self).2 = self)
  ∧ (rejection instr = None
     ↔ emit_arity (opcode instr) = Some (length (operands instr))).
Proof.
  split; [apply dispatch_accepted|]. split.
  - intros e He. destruct (dispatch instr self) as [o self'] eqn:E.
    simpl in *. subst o. by apply dispatch_rejected in E as [_ ->].
  - apply rejection_arity.
Qed.

Lemma emit_all_stops (body : list TAC) :
  ∀ (self self' : CodeEmitter) (e : exn),
    emit_all body self = (Some e, self') →
    ∃ pre instr post,
      body = pre ++ instr :: post
      ∧ emit_all pre self = (None, self')
      ∧ dispatch instr self' = (Some e, self').
Proof.
  induction body as [|instr body IH]; intros self self' e; simpl; [done|].
  destruct (dispatch instr self) as [[e'|] self1] eqn:E.
  - intros [= <- <-]. apply dispatch_rejected in E as HE.
    destruct HE as [_ ->]. by exists [], instr, body.
  - intros (pre & i & post & -> & Hpre & Hi)%IH.
    exists (instr :: pre), i, post. simpl. by rewrite E.
Qed.

(** When the loop over a body ends with an exception, the emitter holds
    what the instructions before the rejected one emitted, and nothing of
    the rejected one or of those after it. *)
Theorem emission_stops_at_first_rejected (body : list TAC)
  (self self' : CodeEmitter) (e : exn) :
  emit_all body self = (Some e, self') →
  ∃ pre instr post,
    body = pre ++ instr :: post
    ∧ Forall (λ i, rejection i = None) pre
    ∧ rejection instr = Some e
    ∧ emit_all pre self = (None, self').
Proof.
  intros (pre & instr & post & -> & Hpre & Hinstr)%emit_all_stops.
  exists pre, instr, post. repeat split; try done.
  - clear Hinstr. revert self Hpre.
    induction pre as [|i pre IH]; intros self; simpl; [done|].
    destruct (dispatch i self) as [[e'|] self1] eqn:E; [done|].
    intros H. constructor; [|by eapply IH].
    by rewrite <- (dispatch_accepted i self), E.
  - by apply dispatch_rejected in Hinstr as [? _].
Qed.

(** The theorem at a body whose second instruction has no routine. *)
Lemma emission_stops_at_first_rejected_witness :
  ∃ pre instr post,
    [Build_TAC "const" ["1"] (Some "%0"); frobnicate_instr;
     Build_TAC "print" ["%0"] None]
    = pre ++ instr :: post
    ∧ Forall (λ i, rejection i = None) pre
    ∧ rejection instr = Some (AttributeError "_emit_frobnicate")
    ∧ emit_all pre CodeEmitter_init
      = (None,
         {| _temps := {["%0" := 0%nat]};
            _asm := [_get_asm "mov" ["X2"; "#1"];
                     _get_asm "str" ["X2"; "[SP, #0]"]] |}).
Proof.
  apply (emission_stops_at_first_rejected _ CodeEmitter_init).
  reflexivity.
Defined.

(** *** What emission keeps *)

Lemma touch_subseteq (temps : gmap string nat) (t : string) :
  temps ⊆ touch temps t.
Proof.
  unfold touch. destruct (temps !! t) eqn:E; [done|].
  by apply insert_subseteq.
Qed.

Lemma foldl_touch_subseteq (refs : list string) (temps : gmap string nat) :
  temps ⊆ foldl touch temps refs.
Proof.
  revert temps. induction refs as [|t refs IH]; intros temps; simpl; [done|].
  etrans; [apply (touch_subseteq temps t)|apply IH].
Qed.

Lemma temp_asm (t d : string) (self self' : CodeEmitter) :
  _temp t self = (d, self') → _asm self' = _asm self.
Proof.
  unfold _temp. destruct (_temps self !! t); by intros [= _ <-].
Qed.

Ltac step_asm :=
  match goal with
  | |- context [_temp ?t ?s] =>
      let d := fresh "d" in
      let s1 := fresh "s" in
      let E := fresh "E" in
      destruct (_temp t s) as [d s1] eqn:E; apply temp_asm in E;
      simpl in E
  end.

Ltac chase_asm :=
  repeat match goal with
         | H : _asm ?s = _ |- context [_asm ?s] => rewrite H; clear H
         end.

Lemma dispatch_asm (instr : TAC) (self self' : CodeEmitter) :
  dispatch instr self = (None, self') →
  ∃ lines, _asm self' = _asm self ++ lines
           ∧ length lines = emitted_lines instr.
Proof.
  unfold dispatch, getattr_emit, emitted_lines. simpl.
  change ("" +:+ opcode instr) with (opcode instr).
  repeat (destruct (String.eqb (opcode instr) _) eqn:E;
          [apply String.eqb_eq in E; rewrite E; clear E|clear E]);
    try discriminate; simpl;
    destruct (operands instr) as [|a [|b [|c [|d [|e l]]]]];
    simpl; try discriminate; intros [= <-];
    unfold _emit_add, _emit_sub, _emit_mul, _emit_div, _emit_and, _emit_or,
      _emit_xor, _emit_shl, _emit_shr, _emit_alu2, _emit_const, _emit_copy,
      _emit_mod, _emit_print;
    repeat step_asm; simpl; chase_asm; rewrite <- ?app_assoc;
    eexists; (split; [reflexivity|reflexivity]).
Qed.

Lemma emit_all_extends (body : list TAC) :
  ∀ self,
    _asm self `prefix_of` _asm (emit_all body self).2
    ∧ _temps self ⊆ _temps (emit_all body self).2
    ∧ ((emit_all body self).1 = None →
       length (_asm (emit_all body self).2)
       = (length (_asm self) + sum_list (emitted_lines <$> body))%nat).
Proof.
  induction body as [|instr body IH]; intros self; simpl.
  - repeat split; [done|done|lia].
  - destruct (dispatch instr self) as [[e|] self1] eqn:E.
    + simpl. apply dispatch_rejected in E as [_ ->]. by repeat split.
    + destruct (IH self1) as (Hasm & Htemps & Hlen).
      destruct (dispatch_asm _ _ _ E) as (lines & Hlines & Hn).
      apply dispatch_temps in E. repeat split.
      * etrans; [|apply Hasm]. rewrite Hlines. by apply prefix_app_r.
      * etrans; [|apply Htemps]. rewrite E. apply foldl_touch_subseteq.
      * intros H. rewrite (Hlen H), Hlines, length_app.
        change (list_fmap TAC nat emitted_lines body)
          with (emitted_lines <$> body). lia.
Qed.

(** Emission only extends the emitter, whether the loop returns or raises:
    the lines present before are a prefix of the lines after, and a
    temporary keeps the slot it has.  When the loop returns, the lines
    added are two for [const] and [copy], six for [mod], eight for [print]
    and four for every other instruction. *)
Theorem emission_only_extends (body : list TAC) (self : CodeEmitter) :
  _asm self `prefix_of` _asm (emit_all body self).2
  ∧ (∀ t i, _temps self !! t = Some i →
            _temps (emit_all body self).2 !! t = Some i)
  ∧ ((emit_all body self).1 = None →
     length (_asm (emit_all body self).2)
     = (length (_asm self) + sum_list (emitted_lines <$> body))%nat).
Proof.
  destruct (emit_all_extends body self) as (Hasm & Htemps & Hlen).
  repeat split; [done| |done].
  intros t i Hi. by eapply lookup_weaken.
Qed.

(** Every slot lies inside the frame the prologue reserves, whether the
    loop over the body returned or raised. *)
Theorem slots_inside_frame (body : list TAC) (o : option exn)
  (self : CodeEmitter) :
  emit_all body CodeEmitter_init = (o, self) →
  ∀ t i, _temps self !! t = Some i →
         8 * Z.of_nat i + 8 ≤ 8 * frame_slots self.
Proof.
  intros Hbody t i Hi.
  assert (∃ pre, emit_all pre CodeEmitter_init = (None, self))
    as [pre Hpre].
  { destruct o as [e|]; [|by exists body].
    apply emit_all_stops in Hbody as (pre & _ & _ & _ & Hpre & _).
    by exists pre. }
  pose proof (slots_foldl (referenced pre) [] ∅ slots_empty) as Hslots.
  change ∅ with (_temps CodeEmitter_init) in Hslots.
  rewrite <- (emit_all_temps _ _ _ Hpre) in Hslots.
  destruct Hslots as [_ Hsize Hlookup].
  apply Hlookup, lookup_lt_Some in Hi.
  unfold frame_slots. rewrite land_one, Hsize.
  pose proof (Z.mod_pos_bound (Z.of_nat (length (foldl use []
                                                   (referenced pre)))) 2).
  lia.
Qed.

(** The theorem at the body of scenario C, whose three slots fit the
    thirty-two bytes reserved. *)
Lemma slots_inside_frame_witness :
  8 * Z.of_nat 2 + 8
  ≤ 8 * frame_slots (emit_all scenario_C CodeEmitter_init).2.
Proof.
  apply (slots_inside_frame scenario_C None _ eq_refl "%2").
  reflexivity.
Defined.

(** *** The procedure the backend reads *)

Lemma select_main_filter (procs : list json) :
  Forall (λ x, ∃ name, getitem_str x "proc" = Ok name) procs →
  select_main procs = Ok (filter (λ x, named_main x = true) procs).
Proof.
  induction 1 as [|x procs [name Hx] _ IH]; cbn [select_main]; [done|].
  rewrite Hx, IH. cbn [mbind result_bind]. rewrite filter_cons.
  assert (named_main x = is_str name "@main") as Hname
    by (unfold named_main; by rewrite Hx).
  rewrite Hname. destruct (is_str name "@main"); by case_decide.
Qed.

(** In a document whose procedures all carry a name, the backend reads the
    body of the first procedure named [@main], whatever comes before and
    after it, and raises [IndexError] when no procedure has that name. *)
Theorem main_body_reads_first_main (procs : list json) :
  Forall (λ x, ∃ name, getitem_str x "proc" = Ok name) procs →
  main_body (JList procs)
  = match filter (λ x, named_main x = true) procs with
    | [] => Raise IndexError
    | first :: _ => getitem_str first "body"
    end.
Proof.
  intros H. unfold main_body. simpl. rewrite (select_main_filter _ H).
  simpl. by destruct (filter _ procs).
Qed.

(** The theorem at a document with two procedures named [@main] after a
    procedure of another name. *)
Lemma main_body_reads_first_main_witness :
  main_body
    (JList [JObject [("proc", JString "@helper"); ("body", JList [])];
            JObject [("proc", JString "@main");
                     ("body", JList [JString "first"])];
            JObject [("proc", JString "@main");
                     ("body", JList [JString "second"])]])
  = Ok (JList [JString "first"]).
Proof.
  etrans; [apply main_body_reads_first_main|reflexivity].
  repeat constructor; by eexists.
Defined.

(** *** Slots and the frame *)

Lemma emit_all_accepted_prefix (body : list TAC) :
  ∀ self,
    emit_all (accepted_prefix body) self = (None, (emit_all body self).2)
    ∧ ((emit_all body self).1 = None → accepted_prefix body = body)
    ∧ (∀ e, (emit_all body self).1 = Some e →
            ∃ instr rest,
              body = accepted_prefix body ++ instr :: rest
              ∧ rejection instr = Some e).
Proof.
  induction body as [|instr body IH]; intros self; cbn [accepted_prefix].
  - simpl. by repeat split.
  - pose proof (dispatch_accepted instr self) as Hacc.
    pose proof (dispatch_rejection instr self) as Hrej.
    destruct (rejection instr) as [e|] eqn:Erej; cbn [emit_all].
    + rewrite Hrej. simpl. repeat split; [done|].
      intros e' [= <-]. by exists instr, body.
    + clear Hrej. destruct (dispatch instr self) as [o self1].
      simpl in Hacc. subst o.
      destruct (IH self1) as (Hpre & Hall & Hsplit). repeat split.
      * done.
      * intros H. by rewrite (Hall H).
      * intros e (i & rest & Hbody & Hi)%Hsplit.
        exists i, rest. split; [|done]. simpl. by rewrite <- Hbody.
Qed.

Lemma join_snoc (sep : string) (f : string → string) (xs : list string)
  (z : string) :
  join sep ((f <$> xs) ++ [z])
  = foldr (λ line rest, f line +:+ sep +:+ rest) z xs.
Proof.
  induction xs as [|x xs IH]; [done|].
  rewrite fmap_cons. cbn [foldr]. rewrite <- IH.
  change ((f x :: (f <$> xs)) ++ [z]) with (f x :: ((f <$> xs) ++ [z])).
  destruct ((f <$> xs) ++ [z]) as [|y l] eqn:E; [|done].
  by destruct xs.
Qed.

Lemma code_text (self : CodeEmitter) :
  code self
  = TAB +:+ _get_asm "sub" ["SP"; "SP"; "#" +:+ pretty (8 * frame_slots self)]
    +:+ NL
    +:+ foldr (λ line rest, (TAB +:+ line) +:+ NL +:+ rest)
          (TAB +:+ _get_asm "add"
                     ["SP"; "SP"; "#" +:+ pretty (8 * frame_slots self)])
          (_asm self).
Proof.
  unfold code, code_lines. cbv zeta. rewrite fmap_app, fmap_cons.
  change ([?x] ++ ?l) with (x :: l). rewrite fmap_app.
  rewrite <- (join_snoc NL (λ x, TAB +:+ x)).
  simpl. by destruct (_ ++ _) eqn:E; [destruct (_asm self)|].
Qed.

(** C6, as amended. For every sequence, the emitter ends with one slot for
    each distinct temporary referenced by the instructions it has emitted:
    all of the sequence when the loop returns, and those before the first
    rejected instruction otherwise.  Slots are numbered from zero in order
    of first reference, two temporaries never share a slot, slot [i] is
    addressed as [[SP, #8*i]], and the text of [code] opens with the line
    [sub SP, SP, #n] and closes with the line [add SP, SP, #n] around the
    emitted lines, where [n = 8 * (k + k mod 2)] is a multiple of 16 for
    [k] slots. *)
Theorem slots_per_distinct_temporary (body : list TAC) :
  let self := (emit_all body CodeEmitter_init).2 in
  let emitted := accepted_prefix body in
  let order := first_uses (referenced emitted) in
  let k := length order in
  let n := 8 * (Z.of_nat k + Z.of_nat k `mod` 2) in
  let tab := String "009" EmptyString in
  let nl := String "010" EmptyString in
  ((emit_all body CodeEmitter_init).1 = None → emitted = body)
  ∧ (∀ e, (emit_all body CodeEmitter_init).1 = Some e →
          ∃ instr rest,
            body = emitted ++ instr :: rest ∧ rejection instr = Some e)
  ∧ emit_all emitted CodeEmitter_init = (None, self)
  ∧ k = size (list_to_set (referenced emitted) : gset string)
  ∧ size (_temps self) = k
  ∧ (∀ t i, _temps self !! t = Some i ↔ order !! i = Some t)
  ∧ (∀ t1 t2 i,
       _temps self !! t1 = Some i → _temps self !! t2 = Some i → t1 = t2)
  ∧ (∀ t i,
       _temps self !! t = Some i →
       _temp t self = ("[SP, #" +:+ pretty (8 * i)%nat +:+ "]", self))
  ∧ n `mod` 16 = 0
  ∧ code self
    = tab +:+ "sub" +:+ tab +:+ "SP, SP, #" +:+ pretty n +:+ nl
      +:+ foldr (λ line rest, tab +:+ line +:+ nl +:+ rest)
            (tab +:+ "add" +:+ tab +:+ "SP, SP, #" +:+ pretty n)
            (_asm self).
Proof.
  intros self emitted order k n tab nl.
  destruct (emit_all_accepted_prefix body CodeEmitter_init)
    as (Hemitted & Hall & Hsplit).
  fold self emitted in Hemitted, Hall, Hsplit.
  pose proof (emit_all_temps _ _ _ Hemitted) as Htemps. simpl in Htemps.
  pose proof (slots_foldl (referenced emitted) [] ∅ slots_empty) as Hslots.
  rewrite <- Htemps in Hslots. destruct Hslots as [Hnodup Hsize Hlookup].
  fold order in Hsize, Hlookup. fold k in Hsize.
  assert (8 * frame_slots self = n) as Hframe.
  { unfold frame_slots, n. by rewrite Hsize, land_one. }
  split; [done|]. split; [done|]. split; [done|].
  split; [apply first_uses_distinct|]. split; [done|].
  split; [done|].
  split; [intros t1 t2 i H1%Hlookup H2%Hlookup; congruence|].
  split; [intros t i Ht; unfold _temp; by rewrite Ht|]. split.
  - unfold n. generalize (Z.of_nat k). intros m.
    pose proof (Z.mod_pos_bound m 2).
    rewrite (Z.div_mod m 2) at 1 by lia.
    replace (8 * (2 * (m `div` 2) + m `mod` 2 + m `mod` 2))
      with ((m `div` 2 + m `mod` 2) * 16) by lia.
    apply Z.mod_mul. lia.
  - rewrite code_text, Hframe. reflexivity.
Qed.

(** The theorem at a body with three temporaries: thirty-two bytes are
    reserved for the three slots. *)
Lemma slots_per_distinct_temporary_witness :
  let self := (emit_all scenario_C CodeEmitter_init).2 in
  size (_temps self) = 3%nat
  ∧ _temps self !! "%2" = Some 2%nat
  ∧ ∃ rest,
      code self
      = String "009" ("sub" +:+ String "009" ("SP, SP, #32"
                                               +:+ String "010" rest)).
Proof.
  intros self.
  pose proof (slots_per_distinct_temporary scenario_C) as H.
  cbv zeta in H. fold self in H.
  destruct H as (_ & _ & _ & _ & Hsize & Hlookup & _ & _ & _ & Hcode).
  split; [exact Hsize|]. split; [by apply Hlookup|].
  eexists. rewrite Hcode. reflexivity.
Defined.

(** C6, counterexample. The body that [print -1;] is lowered to references two
    temporaries; the emitter rejects its second instruction, whose
    mnemonic [neg] has no routine, and is left with the one slot assigned
    before. *)
Lemma rejected_instruction_leaves_one_slot :
  mm print_negation = Ok negation_body
  ∧ size (list_to_set (referenced negation_body) : gset string) = 2%nat
  ∧ emit_all negation_body CodeEmitter_init
    = (Some (AttributeError "_emit_neg"),
       {| _temps := {["%1" := 0%nat]};
          _asm := [_get_asm "mov" ["X2"; "#1"];
                   _get_asm "str" ["X2"; "[SP, #0]"]] |})
  ∧ size (_temps (emit_all negation_body CodeEmitter_init).2) = 1%nat.
Proof. by vm_compute. Qed.

End Tac2armMore.

(** ** From the lowering to the emitter *)

Module Pipeline.
Import Py.
Import Skeleton.
Import SkeletonNotions.
Import Tac2arm.
Import Tac2armNotions.
Import PipelineNotions.
Import Scenarios.
Import SkeletonFacts.
Import Tac2armFacts.
Import SkeletonMore.
Import Tac2armMore.

(** The mnemonics of [OPCODES] that have a routine all take two operands
    and a destination; [neg] and [not] have none. *)
Lemma opcodes_emitted (operator mnemonic : string) (n : nat) :
  OPCODES !! operator = Some mnemonic →
  emit_arity mnemonic = Some (S n)
  ↔ bool_decide (n = 2%nat)
    && bool_decide (operator ∉ ["opposite"; "bitwise-negation"]) = true.
Proof.
  intros H. unfold OPCODES in H. apply elem_of_list_to_map_2 in H.
  repeat (apply elem_of_cons in H as [[= -> ->] | H]);
    [..|by apply elem_of_nil in H];
    destruct n as [|[|[|n]]]; vm_compute; split; congruence.
Qed.

Lemma rejection_pushed (mnemonic target : string) (ts : list string) :
  rejection (Build_TAC mnemonic ts (Some target)) = None
  ↔ emit_arity mnemonic = Some (S (length ts)).
Proof.
  rewrite rejection_arity. unfold operands. simpl.
  rewrite length_app. simpl. by rewrite Nat.add_1_r.
Qed.

Lemma for_arguments_binary (es : list Expression) :
  Forall lowers_binary es →
  ∀ self ts self',
    for_arguments es self = Ok (ts, self') →
    ∃ new, _tac self' = _tac self ++ new
           ∧ (Forall (λ i, rejection i = None) new
              ↔ forallb binary es = true).
Proof.
  induction 1 as [|e es He _ IH]; intros self ts self'; simpl.
  - intros [= <- <-]. exists []. by rewrite app_nil_r.
  - destruct (for_expression e self) as [[t self1]|] eqn:E; [|done]. simpl.
    destruct (for_arguments es self1) as [[ts' self2]|] eqn:Es; [|done].
    simpl. intros [= <- <-].
    destruct (He _ _ _ E) as (new1 & H1 & Hb1).
    destruct (IH _ _ _ Es) as (new2 & H2 & Hb2).
    exists (new1 ++ new2). split; [by rewrite H2, H1, app_assoc|].
    by rewrite Forall_app, andb_true_iff, Hb1, Hb2.
Qed.

Lemma for_expression_binary (e : Expression) : lowers_binary e.
Proof.
  induction e as [name|v|operator es IH] using Expression_nested_ind;
    intros self t self'.
  - simpl. destruct (vars_get _ _); [|done]. simpl. intros [= <- <-].
    exists []. by rewrite app_nil_r.
  - simpl. intros [= <- <-]. eexists. split; [reflexivity|].
    split; [done|]. intros _. by apply Forall_singleton.
  - rewrite for_expression_OpApp, fresh_temporary_eq.
    destruct (for_arguments es _) as [[ts self1]|] eqn:Es; [|done]. simpl.
    unfold opcodes_get.
    destruct (OPCODES !! operator) as [mnemonic|] eqn:Eop; [|done]. simpl.
    intros [= <- <-].
    destruct (for_arguments_binary es IH _ _ _ Es) as (new & Hnew & Hb).
    destruct (for_arguments_sizes es
                (Forall_true _ _ for_expression_sizes) _ _ _ Es)
      as (Hlen & _).
    simpl in Hnew. eexists. split.
    + simpl. rewrite Hnew, <- app_assoc. reflexivity.
    + rewrite Forall_app, Forall_singleton, rejection_pushed, Hlen.
      rewrite (opcodes_emitted _ _ _ Eop), Hb.
      by rewrite <- andb_assoc, !andb_true_iff.
Qed.

Lemma for_statement_binary (stmt : Statement) (self self' : MM) :
  for_statement stmt self = Ok self' →
  ∃ new, _tac self' = _tac self ++ new
         ∧ (Forall (λ i, rejection i = None) new
            ↔ from_option binary true (lowered_expression stmt) = true).
Proof.
  destruct stmt as [name init|lhs rhs|v].
  - rewrite for_statement_VarDecl. intros [= <-]. eexists.
    split; [reflexivity|]. split; [done|]. intros _.
    by apply Forall_singleton.
  - simpl. destruct (for_expression rhs self) as [[t self1]|] eqn:E;
      [|done]. simpl.
    destruct (vars_get _ _) as [dest|]; [|done]. simpl. intros [= <-].
    destruct (for_expression_binary _ _ _ _ E) as (new & Hnew & Hb).
    eexists. split; [simpl; rewrite Hnew, <- app_assoc; reflexivity|].
    rewrite Forall_app, Forall_singleton, Hb. split; [by intros [? _]|done].
  - simpl. destruct (for_expression v self) as [[t self1]|] eqn:E;
      [|done]. simpl. intros [= <-].
    destruct (for_expression_binary _ _ _ _ E) as (new & Hnew & Hb).
    eexists. split; [simpl; rewrite Hnew, <- app_assoc; reflexivity|].
    rewrite Forall_app, Forall_singleton, Hb. split; [by intros [? _]|done].
Qed.

Lemma for_program_binary (prgm : Program) :
  ∀ self self',
    for_program prgm self = Ok self' →
    ∃ new, _tac self' = _tac self ++ new
           ∧ (Forall (λ i, rejection i = None) new
              ↔ binary_program prgm = true).
Proof.
  induction prgm as [|stmt prgm IH]; intros self self'; simpl.
  - intros [= <-]. exists []. by rewrite app_nil_r.
  - destruct (for_statement stmt self) as [self1|] eqn:E; [|done]. simpl.
    intros H. destruct (for_statement_binary _ _ _ E) as (new1 & H1 & Hb1).
    destruct (IH _ _ H) as (new2 & H2 & Hb2).
    exists (new1 ++ new2). split; [by rewrite H2, H1, app_assoc|].
    by rewrite Forall_app, andb_true_iff, Hb1, Hb2.
Qed.

(** The document written for a lowered program is read back by the
    backend as the lowered sequence, and the emitter goes through it
    without an exception exactly when every operator application of the
    program has two arguments and an operator other than [opposite] and
    [bitwise-negation]: declarations, assignments, prints, literals and
    variables are always emitted, while the mnemonics [neg] and [not] the
    lowering produces have no routine in the emitter. *)
Theorem lowered_program_emitted_iff_binary (prgm : Program)
  (tac : list TAC) :
  mm prgm = Ok tac →
  read_document (aout tac) = Ok tac
  ∧ ((emit_all tac CodeEmitter_init).1 = None
     ↔ binary_program prgm = true).
Proof.
  unfold mm. destruct (for_program prgm MM_init) as [self|] eqn:E; [|done].
  simpl. intros [= <-]. split; [apply read_document_aout|].
  destruct (for_program_binary _ _ _ E) as (new & Hnew & Hb).
  simpl in Hnew. by rewrite Hnew, emit_all_accepts.
Qed.

(** The theorem at scenario A, which the emitter accepts, and at the
    negation of a literal, which it rejects. *)
Lemma lowered_program_emitted_iff_binary_witness :
  (∃ tac, mm scenario_A = Ok tac
          ∧ (emit_all tac CodeEmitter_init).1 = None)
  ∧ (∃ tac, mm [PrintStatement
                  (OpAppExpression "opposite" [IntExpression 1])] = Ok tac
            ∧ (emit_all tac CodeEmitter_init).1 ≠ None).
Proof.
  split; eexists; (split; [reflexivity|]).
  - by apply (lowered_program_emitted_iff_binary scenario_A).
  - intros H.
    by apply (lowered_program_emitted_iff_binary
                [PrintStatement
                   (OpAppExpression "opposite" [IntExpression 1])]) in H.
Defined.

End Pipeline.
